(** * DLHWeight: the DLH weighting scheme of the DFR framework

    A shallow embedding of [xapian-core/weight/dlhweight.cc] and of the
    declarations of omega's [query.h], with the properties of the
    weighting-scheme contract that concern them.

    Numbers.  The C++ code computes in [double].  A [double] is embedded as
    an extended real: a finite value carries the real number it denotes, and
    the three special values of IEEE 754 ([+inf], [-inf], [NaN]) are kept,
    with the standard's rules for them (a non-zero value divided by zero is
    an infinity, [0/0], [0 * inf] and [inf - inf] are [NaN], every ordered
    comparison with [NaN] is false, the logarithm of zero is [-inf] and of a
    negative number [NaN]).  Rounding and overflow of finite results are not
    modelled: a finite operation returns the exact real result, and [M_PI]
    denotes the real number pi.  A statement that a result is finite
    therefore takes its inputs within explicit limits (section Magnitudes)
    and bounds the results by [DBL_MAX], so that it is not about values the
    program would turn into an infinity.  The sign of zero is not modelled
    either; in this program every divisor that can be zero is a converted
    unsigned count, hence [+0.0]. *)

From Stdlib Require Import Reals Lra Lia ZArith NArith String Bool List.

Open Scope R_scope.

(** ** The model of [double] *)

Module IEEE.

Inductive double : Type :=
| Fin (r : R)
| PInf
| NInf
| NaN.

Definition Rltb (a b : R) : bool := if Rlt_dec a b then true else false.
Definition Rleb (a b : R) : bool := if Rle_dec a b then true else false.
Definition Reqb (a b : R) : bool := if Req_dec_T a b then true else false.

(** Ordered comparisons: false as soon as one side is [NaN]. *)
Definition dlt (x y : double) : bool :=
  match x, y with
  | NaN, _ | _, NaN => false
  | Fin a, Fin b => Rltb a b
  | NInf, NInf | PInf, _ | _, NInf => false
  | NInf, _ | _, PInf => true
  end.

Definition dle (x y : double) : bool :=
  match x, y with
  | NaN, _ | _, NaN => false
  | Fin a, Fin b => Rleb a b
  | NInf, _ | _, PInf => true
  | PInf, _ | _, NInf => false
  end.

Definition deq (x y : double) : bool :=
  match x, y with
  | Fin a, Fin b => Reqb a b
  | PInf, PInf | NInf, NInf => true
  | _, _ => false
  end.

Definition dopp (x : double) : double :=
  match x with
  | Fin a => Fin (- a)
  | PInf => NInf
  | NInf => PInf
  | NaN => NaN
  end.

Definition dadd (x y : double) : double :=
  match x, y with
  | NaN, _ | _, NaN => NaN
  | Fin a, Fin b => Fin (a + b)
  | PInf, NInf | NInf, PInf => NaN
  | PInf, _ | _, PInf => PInf
  | NInf, _ | _, NInf => NInf
  end.

Definition dsub (x y : double) : double := dadd x (dopp y).

(** The infinity whose sign is that of [a]; [NaN] when [a] is zero. *)
Definition signed_inf (a : R) (pos neg : double) : double :=
  if Rltb 0 a then pos else if Rltb a 0 then neg else NaN.

Definition dmul (x y : double) : double :=
  match x, y with
  | NaN, _ | _, NaN => NaN
  | Fin a, Fin b => Fin (a * b)
  | Fin a, PInf | PInf, Fin a => signed_inf a PInf NInf
  | Fin a, NInf | NInf, Fin a => signed_inf a NInf PInf
  | PInf, PInf | NInf, NInf => PInf
  | PInf, NInf | NInf, PInf => NInf
  end.

Definition ddiv (x y : double) : double :=
  match x, y with
  | NaN, _ | _, NaN => NaN
  | Fin a, Fin b => if Reqb b 0 then signed_inf a PInf NInf else Fin (a / b)
  | Fin _, PInf | Fin _, NInf => Fin 0
  | PInf, Fin b => if Rltb b 0 then NInf else PInf
  | NInf, Fin b => if Rltb b 0 then PInf else NInf
  | PInf, _ | NInf, _ => NaN
  end.

(** [log2] of [common/log2.h]. *)
Definition log2 (x : double) : double :=
  match x with
  | Fin a => if Rltb 0 a then Fin (ln a / ln 2)
             else if Reqb a 0 then NInf else NaN
  | PInf => PInf
  | NInf | NaN => NaN
  end.

(** [std::min(a, b)] is [(b < a) ? b : a]. *)
Definition dmin (a b : double) : double := if dlt b a then b else a.

Definition M_PI : double := Fin PI.

(** A finite value above zero: what a logarithm is safely taken of. *)
Definition positive_finite (x : double) : Prop := exists r, x = Fin r /\ 0 < r.

End IEEE.

Import IEEE.

Declare Scope double_scope.
Delimit Scope double_scope with D.
Bind Scope double_scope with double.
Notation "x + y" := (dadd x y) : double_scope.
Notation "x - y" := (dsub x y) : double_scope.
Notation "x * y" := (dmul x y) : double_scope.
Notation "x / y" := (ddiv x y) : double_scope.
Notation "x <? y" := (dlt x y) (at level 70) : double_scope.
Notation "x <=? y" := (dle x y) (at level 70) : double_scope.
Notation "x =? y" := (deq x y) (at level 70) : double_scope.
Notation "0.0" := (Fin 0) : double_scope.
Notation "0.5" := (Fin (1 / 2)) : double_scope.
Notation "1.0" := (Fin 1) : double_scope.
Notation "2.0" := (Fin 2) : double_scope.

(** ** Counts

    [Xapian::termcount] and [Xapian::doccount] are [unsigned] (32 bits):
    a count is a natural number below [2^32], subtraction wraps around, and
    the conversion to [double] is exact. *)

Definition termcount := N.
Definition doccount := N.
Bind Scope N_scope with termcount doccount.

Definition termcount_modulus : Z := 2 ^ 32.

Definition is_termcount (n : termcount) : Prop := (n < 2 ^ 32)%N.

(** [a - b] in unsigned arithmetic. *)
Definition termcount_sub (a b : termcount) : termcount :=
  Z.to_N ((Z.of_N a - Z.of_N b) mod termcount_modulus).

(** The implicit conversion of an unsigned count to [double]. *)
Definition of_count (n : N) : double := Fin (IZR (Z.of_N n)).

(** ** Errors and results *)

Inductive Error : Type :=
| SerialisationError (msg : string).

Inductive result (A : Type) : Type :=
| Ok (a : A)
| Throw (e : Error).
Arguments Ok {A} a.
Arguments Throw {A} e.

(** Sequencing of reads that need an assigned member. *)
Definition bind {A B : Type} (m : option A) (k : A -> option B) : option B :=
  match m with
  | Some a => k a
  | None => None
  end.
Notation "x <- m ;; k" := (bind m (fun x => k))
  (at level 61, m at next level, right associativity).

(** ** The statistics of a term

    What the base class [Xapian::Weight] hands to [init] through its
    [get_*] accessors. *)

Record TermStats : Type := {
  get_collection_size : doccount;
  get_collection_freq : termcount;
  get_average_length : double;
  get_wdf_upper_bound : termcount;
  get_doclength_upper_bound : termcount;
  get_wqf : termcount
}.

(** ** The scheme

    The three data members of the class.  A member that has been assigned
    holds [Some] value; the constructor [DLHWeight()] assigns none of them,
    and a computation that reads a member never assigned has no result
    ([None]). *)

Record DLHWeight : Type := {
  log_constant : option double;
  wqf_product_factor : option double;
  upper_bound : option double
}.

(** [new DLHWeight()]. *)
Definition DLHWeight_new : DLHWeight :=
  {| log_constant := None; wqf_product_factor := None; upper_bound := None |}.

Definition clone (w : DLHWeight) : DLHWeight := DLHWeight_new.

Section Init.

Variable st : TermStats.

Local Open Scope double_scope.

Definition wdf_lower : double := 1.0.

Definition min_wdf_to_len : double :=
  wdf_lower / of_count (get_doclength_upper_bound st).

(** The value [init] gives to [log_constant]. *)
Definition init_log_constant : double :=
  get_average_length st * of_count (get_collection_size st)
  / of_count (get_collection_freq st).

(** The value [init] gives to [wqf_product_factor]. *)
Definition init_wqf_product_factor (factor : double) : double :=
  of_count (get_wqf st) * factor.

Definition max_product : double :=
  let wdf_upper := of_count (get_wdf_upper_bound st) in
  let len_upper := of_count (get_doclength_upper_bound st) in
  let wdf_var := dmin wdf_upper (len_upper / 2.0) in
  let max_product_1 := wdf_var * (1.0 - wdf_var / len_upper) in
  let max_product_2 := wdf_upper * (1.0 - min_wdf_to_len) in
  dmin max_product_1 max_product_2.

(** The analytic bound, before it is clamped and scaled. *)
Definition init_bound : double :=
  let wdf_upper := of_count (get_wdf_upper_bound st) in
  let len_upper := of_count (get_doclength_upper_bound st) in
  wdf_upper * log2 init_log_constant / (wdf_upper + 0.5) +
  (len_upper - wdf_lower) * log2 (1.0 - min_wdf_to_len) / (wdf_lower + 0.5) +
  0.5 * log2 (2.0 * M_PI * max_product) / (wdf_lower + 0.5).

Definition init (factor : double) (w : DLHWeight) : DLHWeight :=
  let wdf_upper := of_count (get_wdf_upper_bound st) in
  if wdf_upper =? 0.0 then
    {| log_constant := log_constant w;
       wqf_product_factor := wqf_product_factor w;
       upper_bound := Some 0.0 |}
  else
    let wqf_product_factor := init_wqf_product_factor factor in
    let upper_bound := init_bound in
    {| log_constant := Some init_log_constant;
       wqf_product_factor := Some wqf_product_factor;
       upper_bound :=
         Some (if upper_bound <? 0.0 then 0.0
               else upper_bound * wqf_product_factor) |}.

End Init.

Definition name (w : DLHWeight) : string := "Xapian::DLHWeight".

Definition serialise (w : DLHWeight) : string := EmptyString.

Definition unserialise (w : DLHWeight) (s : string) : result DLHWeight :=
  if negb (String.length s =? 0)%nat then
    Throw (SerialisationError "Extra data in DLHWeight::unserialise()")
  else Ok DLHWeight_new.

Section Sumpart.

Local Open Scope double_scope.

Definition wdf_to_len (wdf len : termcount) : double :=
  of_count wdf / of_count len.

Definition one_minus_wdf_to_len (wdf len : termcount) : double :=
  1.0 - wdf_to_len wdf len.

(** The local [wt] of [get_sumpart]. *)
Definition sumpart_wt (log_constant : double) (wdf len : termcount) : double :=
  of_count wdf * log2 (wdf_to_len wdf len * log_constant) +
  of_count (termcount_sub len wdf) * log2 (one_minus_wdf_to_len wdf len) +
  0.5 * log2 (2.0 * M_PI * of_count wdf * one_minus_wdf_to_len wdf len).

Definition get_sumpart (w : DLHWeight) (wdf len uniq : termcount)
  : option double :=
  if (wdf =? 0)%N then Some 0.0
  else
    log_constant <- log_constant w ;;
    let wt := sumpart_wt log_constant wdf len in
    if wt <=? 0.0 then Some 0.0
    else
      wqf_product_factor <- wqf_product_factor w ;;
      Some (wqf_product_factor * wt / (of_count wdf + 0.5)).

Definition get_maxpart (w : DLHWeight) : option double := upper_bound w.

Definition get_sumextra (w : DLHWeight) (len uniq : termcount) : double := 0.0.

Definition get_maxextra (w : DLHWeight) : double := 0.0.

End Sumpart.

(** ** omega's [query.h]

    The result type that the header declares for [set_probabilistic]. *)








(** ** The closed form of the specification

    The DLH formula as the specification writes it:
    [wt = wdf*log2(wdf/len * N/F*avglen) + (len-wdf)*log2(1-wdf/len)
          + 0.5*log2(2*pi*wdf*(1-wdf/len))],
    and the contribution [wqf_factor * wt / (wdf + 0.5)]. *)

Definition closed_form_wt (N F avglen wdf len : double) : double :=
  (wdf * log2 (wdf / len * (N / F) * avglen)
   + (len - wdf) * log2 (1.0 - wdf / len)
   + 0.5 * log2 (2.0 * M_PI * wdf * (1.0 - wdf / len)))%D.

Definition closed_form_contribution (wqf factor wt wdf : double) : double :=
  (wqf * factor * wt / (wdf + 0.5))%D.

(** ** Example statistics *)

(** The statistics of the end-to-end scenario: [N = 1000], [F = 50],
    average length 20; a wdf upper bound of 10 and a length upper bound of
    100; [wqf = 1]. *)
Definition scenario_stats : TermStats :=
  {| get_collection_size := 1000;
     get_collection_freq := 50;
     get_average_length := Fin 20;
     get_wdf_upper_bound := 10;
     get_doclength_upper_bound := 100;
     get_wqf := 1 |}.


(** Three documents of one term each; the term occurs in two of them. *)
Definition one_term_documents_stats : TermStats :=
  {| get_collection_size := 3;
     get_collection_freq := 2;
     get_average_length := Fin 1;
     get_wdf_upper_bound := 1;
     get_doclength_upper_bound := 1;
     get_wqf := 1 |}.


(** Statistics with a collection frequency of 0 beside a wdf upper bound
    that is not 0. *)
Definition zero_freq_stats : TermStats :=
  {| get_collection_size := 1000;
     get_collection_freq := 0;
     get_average_length := Fin 20;
     get_wdf_upper_bound := 10;
     get_doclength_upper_bound := 100;
     get_wqf := 1 |}.

(** The scenario's statistics with an average length of [+inf]. *)
Definition infinite_length_stats : TermStats :=
  {| get_collection_size := 1000;
     get_collection_freq := 50;
     get_average_length := PInf;
     get_wdf_upper_bound := 10;
     get_doclength_upper_bound := 100;
     get_wqf := 1 |}.

(** ** Magnitudes

    The largest finite [double], and the limits within which average
    length and factor are taken where a statement is about finite results:
    with counts below [2^32], an average length between [2^-256] and
    [2^256] and a factor up to [2^256], no operation of [init] or
    [get_sumpart] comes near [DBL_MAX] or underflows to zero. *)

Definition DBL_MAX : R := IZR (2 ^ 1024 - 2 ^ 971).

Definition magnitude_limit : R := IZR (2 ^ 256).

Definition log_constant_limit : R := IZR (2 ^ 288).

Definition counts_in_range (st : TermStats) : Prop :=
  is_termcount (get_collection_size st) /\
  is_termcount (get_collection_freq st) /\
  is_termcount (get_wdf_upper_bound st) /\
  is_termcount (get_doclength_upper_bound st) /\
  is_termcount (get_wqf st).

(** ** Real-number forms used in the analysis of the bound *)

(** [x * ln (l / x) + d * ln (l / d)] with [l = x + d]: the entropy of a
    document of length [l] that holds the term [x] times, in nats; the
    first two terms of [wt] are its opposite. *)
Definition entropy_nats (x d : R) : R :=
  x * ln ((x + d) / x) + d * ln ((x + d) / d).

(** The postings of documents shorter than 6 in which the term fills more
    than half of the document. *)
Definition small_crowded_posting (x l : R) : Prop :=
  (x = 2 /\ l = 3) \/ (x = 3 /\ l = 4) \/ (x = 3 /\ l = 5) \/ (x = 4 /\ l = 5).

(** The real value of the local [wt] of [get_sumpart] for a log constant
    [c], [wdf = x], [len = l] and [len - wdf = d]. *)
Definition interior_wt (c x l d : R) : R :=
  x * (ln (x / l * c) / ln 2)
  + d * (ln (1 + - (x / l)) / ln 2)
  + 1 / 2 * (ln (2 * PI * x * (1 + - (x / l))) / ln 2).

(** The real value of the analytic bound of [init] for a log constant [c],
    wdf upper bound [W], length upper bound [Lu] and [max_product = m]. *)
Definition analytic_bound (c W Lu m : R) : R :=
  W * (ln c / ln 2) / (W + 1 / 2)
  + (Lu + - 1) * (ln (1 + - (1 / Lu)) / ln 2) / (1 + 1 / 2)
  + 1 / 2 * (ln (2 * PI * m) / ln 2) / (1 + 1 / 2).

(** * Properties *)

(** ** Facts about the model of [double] *)

Lemma Rltb_true (a b : R) : a < b -> Rltb a b = true.
Proof. intro H. unfold Rltb. destruct (Rlt_dec a b); [reflexivity | contradiction]. Qed.

Lemma Rltb_false (a b : R) : b <= a -> Rltb a b = false.
Proof. intro H. unfold Rltb. destruct (Rlt_dec a b); [lra | reflexivity]. Qed.

Lemma Rleb_true (a b : R) : a <= b -> Rleb a b = true.
Proof. intro H. unfold Rleb. destruct (Rle_dec a b); [reflexivity | contradiction]. Qed.

Lemma Rleb_false (a b : R) : b < a -> Rleb a b = false.
Proof. intro H. unfold Rleb. destruct (Rle_dec a b); [lra | reflexivity]. Qed.

Lemma Reqb_true (a b : R) : a = b -> Reqb a b = true.
Proof. intro H. unfold Reqb. destruct (Req_dec_T a b); [reflexivity | contradiction]. Qed.

Lemma Reqb_false (a b : R) : a <> b -> Reqb a b = false.
Proof. intro H. unfold Reqb. destruct (Req_dec_T a b); [contradiction | reflexivity]. Qed.

Lemma Rltb_spec (a b : R) : Rltb a b = true <-> a < b.
Proof. unfold Rltb. destruct (Rlt_dec a b); split; intros; try easy. Qed.

Lemma Rleb_spec (a b : R) : Rleb a b = true <-> a <= b.
Proof. unfold Rleb. destruct (Rle_dec a b); split; intros; try easy. Qed.

Lemma dadd_NaN_r (x : double) : (x + NaN)%D = NaN.
Proof. destruct x; reflexivity. Qed.

Lemma dadd_NaN_l (x : double) : (NaN + x)%D = NaN.
Proof. reflexivity. Qed.

Lemma dmul_NaN_r (x : double) : (x * NaN)%D = NaN.
Proof. destruct x; reflexivity. Qed.

Lemma ddiv_NaN_l (x : double) : (NaN / x)%D = NaN.
Proof. reflexivity. Qed.

Lemma dmul_zero_NInf (a : R) : a = 0 -> (Fin a * NInf)%D = NaN.
Proof.
  intros ->. simpl. unfold signed_inf. rewrite !Rltb_false by lra. reflexivity.
Qed.

Lemma ddiv_Fin (a b : R) : b <> 0 -> (Fin a / Fin b)%D = Fin (a / b).
Proof. intro H. simpl. rewrite Reqb_false by assumption. reflexivity. Qed.

Lemma dmul_Fin (a b : R) : (Fin a * Fin b)%D = Fin (a * b).
Proof. reflexivity. Qed.

Lemma dadd_Fin (a b : R) : (Fin a + Fin b)%D = Fin (a + b).
Proof. reflexivity. Qed.

Lemma dsub_Fin (a b : R) : (Fin a - Fin b)%D = Fin (a + - b).
Proof. reflexivity. Qed.

Lemma log2_pos (a : R) : 0 < a -> log2 (Fin a) = Fin (ln a / ln 2).
Proof. intro H. simpl. rewrite Rltb_true by assumption. reflexivity. Qed.

Lemma log2_zero (a : R) : a = 0 -> log2 (Fin a) = NInf.
Proof.
  intros ->. simpl. rewrite Rltb_false by lra. rewrite Reqb_true by reflexivity.
  reflexivity.
Qed.

Lemma log2_neg (a : R) : a < 0 -> log2 (Fin a) = NaN.
Proof.
  intro H. simpl. rewrite Rltb_false by lra. rewrite Reqb_false by lra.
  reflexivity.
Qed.

(** [0 < a1 * ... * an] from the positivity of each factor. *)
Ltac positive_product :=
  repeat (apply Rmult_lt_0_compat; [| lra]); lra.

Lemma ln_2_pos : 0 < ln 2.
Proof. rewrite <- ln_1. apply ln_increasing; lra. Qed.

Lemma IZR_of_N_nonneg (n : N) : 0 <= IZR (Z.of_N n).
Proof. apply IZR_le. lia. Qed.

Lemma IZR_of_N_pos (n : N) : (0 < n)%N -> 0 < IZR (Z.of_N n).
Proof. intro H. apply IZR_lt. lia. Qed.

Lemma of_count_is_zero (n : N) : (of_count n =? 0.0)%D = (n =? 0)%N.
Proof.
  unfold of_count. simpl. destruct (N.eqb_spec n 0) as [-> | Hn].
  - apply Reqb_true. reflexivity.
  - apply Reqb_false. intro H. apply eq_IZR in H. lia.
Qed.

Lemma init_degenerate (st : TermStats) (factor : double) (w : DLHWeight) :
  get_wdf_upper_bound st = 0%N ->
  init st factor w =
  {| log_constant := log_constant w;
     wqf_product_factor := wqf_product_factor w;
     upper_bound := Some 0.0%D |}.
Proof.
  intro H. unfold init. rewrite of_count_is_zero, H. reflexivity.
Qed.

Lemma init_regular (st : TermStats) (factor : double) (w : DLHWeight) :
  get_wdf_upper_bound st <> 0%N ->
  init st factor w =
  {| log_constant := Some (init_log_constant st);
     wqf_product_factor := Some (init_wqf_product_factor st factor);
     upper_bound :=
       Some (if (init_bound st <? 0.0)%D then 0.0%D
             else (init_bound st * init_wqf_product_factor st factor)%D) |}.
Proof.
  intro H. unfold init. rewrite of_count_is_zero.
  apply N.eqb_neq in H. rewrite H. reflexivity.
Qed.

(** ** Absent terms *)

(** C3: for every [len] and every [doc_unique_terms], and whatever state the
    scheme is in, [get_sumpart(0, len, doc_unique_terms)] returns exactly
    [0.0]. *)
Theorem get_sumpart_wdf_zero (w : DLHWeight) (len uniq : termcount) :
  get_sumpart w 0 len uniq = Some 0.0%D.
Proof. unfold get_sumpart. rewrite N.eqb_refl. reflexivity. Qed.

(** ** Serialisation *)

(** C5: [unserialise] succeeds exactly on the empty string, where it
    returns a newly constructed scheme; on every other string it throws a
    [SerialisationError]; and [serialise] always produces the empty
    string. *)
Theorem unserialise_succeeds_iff_empty (w : DLHWeight) (s : string) :
  ((exists w', unserialise w s = Ok w') <-> s = EmptyString) /\
  ((exists msg, unserialise w s = Throw (SerialisationError msg))
   <-> s <> EmptyString) /\
  unserialise w EmptyString = Ok DLHWeight_new /\
  serialise w = EmptyString.
Proof.
  unfold unserialise, serialise.
  destruct s as [| c s]; simpl.
  - split; [| split; [| split; reflexivity]].
    + split; [reflexivity | intros _; eexists; reflexivity].
    + split; [intros [msg H]; discriminate | intros H; contradiction].
  - split; [| split; [| split; reflexivity]].
    + split; [intros [w' H]; discriminate | intros H; discriminate].
    + split; [intros _; discriminate | intros _; eexists; reflexivity].
Qed.

(** C6: [unserialise(serialise())] succeeds for every scheme, and the
    scheme it returns, once initialised with some term statistics and
    factor, has the same [get_sumpart] for every input as the original
    initialised with them: as a clone of the original (the way a scheme is
    created and initialised once per term), and as the original object
    itself whenever [init] assigns its constants (a non-zero wdf upper
    bound) or the call does not read them ([wdf = 0]). *)
Theorem serialise_unserialise_roundtrip (w : DLHWeight) :
  exists w',
    unserialise w (serialise w) = Ok w' /\
    (forall st factor wdf len uniq,
        get_sumpart (init st factor w') wdf len uniq =
        get_sumpart (init st factor (clone w)) wdf len uniq) /\
    (forall st factor wdf len uniq,
        get_wdf_upper_bound st <> 0%N \/ wdf = 0%N ->
        get_sumpart (init st factor w') wdf len uniq =
        get_sumpart (init st factor w) wdf len uniq).
Proof.
  exists DLHWeight_new. split; [reflexivity | split].
  - intros. reflexivity.
  - intros st factor wdf len uniq [H | ->].
    + rewrite !init_regular by assumption. reflexivity.
    + reflexivity.
Qed.

(** ** Degenerate statistics *)



(** ** A document made of one term: [wdf = len] *)

Lemma termcount_sub_diag (n : termcount) : termcount_sub n n = 0%N.
Proof. unfold termcount_sub. rewrite Z.sub_diag. reflexivity. Qed.

Lemma termcount_sub_exact (a b : termcount) :
  (b <= a)%N -> is_termcount a ->
  IZR (Z.of_N (termcount_sub a b)) = IZR (Z.of_N a) - IZR (Z.of_N b).
Proof.
  unfold termcount_sub, is_termcount, termcount_modulus. intros Hle Ha.
  rewrite Z.mod_small by lia. rewrite Z2N.id by lia. apply minus_IZR.
Qed.

Lemma one_minus_wdf_to_len_diag (wdf : termcount) :
  wdf <> 0%N ->
  exists z, one_minus_wdf_to_len wdf wdf = Fin z /\ z = 0.
Proof.
  intro H. unfold one_minus_wdf_to_len, wdf_to_len, of_count.
  assert (Hx : IZR (Z.of_N wdf) <> 0).
  { intro E. apply eq_IZR in E. lia. }
  rewrite ddiv_Fin by assumption. simpl. eexists. split; [reflexivity |].
  field. assumption.
Qed.

(** At [wdf = len] the second term of [wt] is [0 * log2(0)], which is not a
    number, and so is [wt]. *)
Lemma sumpart_wt_wdf_eq_len (lc : double) (wdf : termcount) :
  wdf <> 0%N -> sumpart_wt lc wdf wdf = NaN.
Proof.
  intro H. unfold sumpart_wt.
  destruct (one_minus_wdf_to_len_diag wdf H) as [z [-> Hz]].
  rewrite (log2_zero z Hz), termcount_sub_diag.
  unfold of_count at 2. rewrite dmul_zero_NInf by reflexivity.
  rewrite dadd_NaN_r. reflexivity.
Qed.

Lemma get_sumpart_wdf_eq_len
    (st : TermStats) (factor : double) (w : DLHWeight) (wdf uniq : termcount) :
  get_wdf_upper_bound st <> 0%N -> wdf <> 0%N ->
  get_sumpart (init st factor w) wdf wdf uniq = Some NaN.
Proof.
  intros Hst H. rewrite init_regular by assumption.
  unfold get_sumpart. apply N.eqb_neq in H. rewrite H. simpl.
  apply N.eqb_neq in H. rewrite sumpart_wt_wdf_eq_len by assumption.
  simpl. rewrite dmul_NaN_r. reflexivity.
Qed.

(** C1 at the admissible posting [wdf = len = 4] ([1 <= 4 <= 10] and
    [4 <= 4 <= 100]), factor 1: [get_sumpart] returns [NaN], and [NaN] is
    not less than or equal to the value [get_maxpart()] returns. *)
Theorem get_sumpart_not_below_maxpart_at_wdf_eq_len :
  (1 <= 4 <= get_wdf_upper_bound scenario_stats)%N /\
  (4 <= 4 <= get_doclength_upper_bound scenario_stats)%N /\
  (1.0 <? 0.0)%D = false /\
  get_sumpart (init scenario_stats 1.0%D DLHWeight_new) 4 4 1 = Some NaN /\
  exists m,
    get_maxpart (init scenario_stats 1.0%D DLHWeight_new) = Some m /\
    (NaN <=? m)%D = false.
Proof.
  split; [simpl; lia | split; [simpl; lia | split; [| split]]].
  - simpl. apply Rltb_false. lra.
  - apply get_sumpart_wdf_eq_len; discriminate.
  - rewrite init_regular by discriminate. simpl. eexists. split; reflexivity.
Qed.

(** ** A collection of one-term documents: a length upper bound of 1 *)

Lemma init_bound_len_upper_one (st : TermStats) :
  get_doclength_upper_bound st = 1%N -> init_bound st = NaN.
Proof.
  intro H. unfold init_bound, min_wdf_to_len, wdf_lower. rewrite H.
  unfold of_count at 3 4. simpl Z.of_N.
  rewrite ddiv_Fin by lra.
  assert (E : log2 (1.0 - Fin (1 / 1))%D = NInf).
  { simpl dsub. simpl dopp. apply log2_zero. field. }
  rewrite E.
  assert (E' : ((Fin 1 - 1.0) * NInf)%D = NaN).
  { simpl dsub. simpl dopp. apply dmul_zero_NInf. lra. }
  rewrite E'. rewrite ddiv_NaN_l, dadd_NaN_r. reflexivity.
Qed.

Lemma get_maxpart_len_upper_one
    (st : TermStats) (factor : double) (w : DLHWeight) :
  get_wdf_upper_bound st <> 0%N -> get_doclength_upper_bound st = 1%N ->
  get_maxpart (init st factor w) = Some NaN.
Proof.
  intros H1 H2. rewrite init_regular by assumption. simpl.
  rewrite init_bound_len_upper_one by assumption. reflexivity.
Qed.

(** C10 at a collection whose documents all have length 1, factor 1: the
    analytic bound is [NaN], which [upper_bound < 0.0] does not catch, so
    [get_maxpart()] returns [NaN], and [0.0 <= NaN] is false. *)
Theorem get_maxpart_nan_at_len_upper_one :
  get_maxpart (init one_term_documents_stats 1.0%D DLHWeight_new) = Some NaN /\
  (0.0 <=? NaN)%D = false /\
  get_maxextra (init one_term_documents_stats 1.0%D DLHWeight_new) = 0.0%D /\
  get_sumextra (init one_term_documents_stats 1.0%D DLHWeight_new) 1 1 = 0.0%D.
Proof.
  split; [| repeat split].
  apply get_maxpart_len_upper_one; [discriminate | reflexivity].
Qed.

(** ** Away from the boundary: [0 < wdf < len] *)

Section Interior.

Variables wdf len : termcount.
Hypothesis wdf_pos : (0 < wdf)%N.
Hypothesis wdf_lt_len : (wdf < len)%N.

Let x : R := IZR (Z.of_N wdf).
Let l : R := IZR (Z.of_N len).

Lemma interior_reals : 0 < x /\ x < l.
Proof. subst x l. split; apply IZR_lt; lia. Qed.

Lemma wdf_to_len_interior : wdf_to_len wdf len = Fin (x / l).
Proof.
  destruct interior_reals as [Hx Hl]. unfold wdf_to_len, of_count.
  apply ddiv_Fin. fold l. lra.
Qed.

Lemma ratio_interior : 0 < x / l < 1.
Proof.
  destruct interior_reals as [Hx Hl]. split.
  - apply Rdiv_lt_0_compat; lra.
  - apply Rmult_lt_reg_r with l; [lra |]. unfold Rdiv.
    rewrite Rmult_assoc, Rinv_l by lra. lra.
Qed.

Lemma one_minus_interior :
  one_minus_wdf_to_len wdf len = Fin (1 + - (x / l)).
Proof. unfold one_minus_wdf_to_len. rewrite wdf_to_len_interior. reflexivity. Qed.

Lemma sumpart_wt_interior (c : R) :
  0 < c ->
  sumpart_wt (Fin c) wdf len =
  Fin (x * (ln (x / l * c) / ln 2)
       + IZR (Z.of_N (termcount_sub len wdf)) * (ln (1 + - (x / l)) / ln 2)
       + 1 / 2 * (ln (2 * PI * x * (1 + - (x / l))) / ln 2)).
Proof.
  intro Hc. destruct interior_reals as [Hx Hl]. destruct ratio_interior as [H0 H1].
  unfold sumpart_wt. rewrite one_minus_interior, wdf_to_len_interior.
  unfold of_count, M_PI. fold x.
  rewrite !dmul_Fin, !log2_pos;
    try (pose proof PI_RGT_0; positive_product).
  reflexivity.
Qed.

End Interior.

Lemma init_log_constant_positive (st : TermStats) (a : R) :
  get_average_length st = Fin a -> 0 < a ->
  (0 < get_collection_size st)%N -> (0 < get_collection_freq st)%N ->
  exists c, init_log_constant st = Fin c /\ 0 < c.
Proof.
  intros Ha Hapos HN HF. unfold init_log_constant. rewrite Ha.
  unfold of_count. rewrite dmul_Fin.
  pose proof (IZR_of_N_pos _ HN). pose proof (IZR_of_N_pos _ HF).
  rewrite ddiv_Fin by lra. eexists. split; [reflexivity |].
  apply Rdiv_lt_0_compat; [positive_product | lra].
Qed.

Lemma half_count_positive (n : N) : 0 < IZR (Z.of_N n) + 1 / 2.
Proof. pose proof (IZR_of_N_nonneg n). lra. Qed.


(** ** The closed form *)

Lemma ln_monotone (a b : R) : 0 < a -> a <= b -> ln a <= ln b.
Proof.
  intros Ha [Hlt | ->]; [left; apply ln_increasing; assumption | right; reflexivity].
Qed.

Lemma closed_form_wt_interior (n f : N) (a : R) (wdf len : termcount) :
  (0 < n)%N -> (0 < f)%N -> 0 < a -> (0 < wdf)%N -> (wdf < len)%N ->
  let x := IZR (Z.of_N wdf) in
  let l := IZR (Z.of_N len) in
  closed_form_wt (of_count n) (of_count f) (Fin a) (of_count wdf) (of_count len)
  = Fin (x * (ln (x / l * (IZR (Z.of_N n) / IZR (Z.of_N f)) * a) / ln 2)
         + (l + - x) * (ln (1 + - (x / l)) / ln 2)
         + 1 / 2 * (ln (2 * PI * x * (1 + - (x / l))) / ln 2)).
Proof.
  intros Hn Hf Ha Hwdf Hlen x l.
  destruct (interior_reals wdf len Hwdf Hlen) as [Hx Hl].
  destruct (ratio_interior wdf len Hwdf Hlen) as [H0 H1].
  pose proof (IZR_of_N_pos _ Hn) as Hn'. pose proof (IZR_of_N_pos _ Hf) as Hf'.
  fold x in Hx, Hl, H0, H1. fold l in Hl, H0, H1.
  assert (Hq : 0 < IZR (Z.of_N n) / IZR (Z.of_N f))
    by (apply Rdiv_lt_0_compat; assumption).
  unfold closed_form_wt, of_count, M_PI. fold x l.
  rewrite !ddiv_Fin by lra. rewrite !dsub_Fin, !dmul_Fin.
  rewrite !log2_pos; try (pose proof PI_RGT_0; positive_product).
  reflexivity.
Qed.

Lemma closed_form_wt_wdf_eq_len (n f avglen : double) (wdf : termcount) :
  wdf <> 0%N ->
  closed_form_wt n f avglen (of_count wdf) (of_count wdf) = NaN.
Proof.
  intro H. unfold closed_form_wt.
  destruct (one_minus_wdf_to_len_diag wdf H) as [z [Hz Hz0]].
  unfold one_minus_wdf_to_len, wdf_to_len in Hz. rewrite Hz.
  rewrite (log2_zero z Hz0). unfold of_count at 4 5. rewrite dsub_Fin.
  rewrite dmul_zero_NInf by lra. rewrite dadd_NaN_r. reflexivity.
Qed.

(** The local [wt] of [get_sumpart] is the closed form of the
    specification, for every posting [1 <= wdf <= len]. *)
Lemma sumpart_wt_closed_form (st : TermStats) (a : R) (wdf len : termcount) :
  (0 < get_collection_size st)%N ->
  (0 < get_collection_freq st)%N ->
  get_average_length st = Fin a -> 0 < a ->
  (1 <= wdf)%N -> (wdf <= len)%N -> is_termcount len ->
  sumpart_wt (init_log_constant st) wdf len =
  closed_form_wt (of_count (get_collection_size st))
                 (of_count (get_collection_freq st))
                 (get_average_length st) (of_count wdf) (of_count len).
Proof.
  intros HN HF Ha Hapos Hwdf Hle Hlen.
  destruct (N.eq_dec wdf len) as [<- | Hne].
  - rewrite sumpart_wt_wdf_eq_len, closed_form_wt_wdf_eq_len by lia.
    reflexivity.
  - assert (Hpos : (0 < wdf)%N) by lia. assert (Hlt : (wdf < len)%N) by lia.
    destruct (interior_reals wdf len Hpos Hlt) as [Hx Hl].
    pose proof (IZR_of_N_pos _ HN) as Hn'. pose proof (IZR_of_N_pos _ HF) as Hf'.
    rewrite Ha, (closed_form_wt_interior _ _ a wdf len HN HF Hapos Hpos Hlt).
    unfold init_log_constant. rewrite Ha. unfold of_count at 1 2.
    rewrite dmul_Fin, ddiv_Fin by lra.
    rewrite (sumpart_wt_interior wdf len Hpos Hlt).
    + rewrite termcount_sub_exact by (assumption || lia). unfold Rminus.
      replace (IZR (Z.of_N wdf) / IZR (Z.of_N len)
               * (a * IZR (Z.of_N (get_collection_size st))
                  / IZR (Z.of_N (get_collection_freq st))))
        with (IZR (Z.of_N wdf) / IZR (Z.of_N len)
              * (IZR (Z.of_N (get_collection_size st))
                 / IZR (Z.of_N (get_collection_freq st))) * a)
        by (field; lra).
      reflexivity.
    + apply Rdiv_lt_0_compat; [positive_product | lra].
Qed.

(** C4: for every posting with [1 <= wdf <= len] of a term whose scheme is
    initialised from positive [N], [F] and average length (the posting
    within the term's wdf upper bound), the local [wt] of [get_sumpart] is
    the closed form [wdf*log2(wdf/len * N/F*avglen) +
    (len-wdf)*log2(1-wdf/len) + 0.5*log2(2*pi*wdf*(1-wdf/len))]; the value
    returned is [0.0] when [wt <= 0] and [(wqf*factor) * wt / (wdf + 0.5)]
    otherwise, in particular when [wt > 0]. *)
Theorem get_sumpart_closed_form
    (st : TermStats) (a : R) (factor : double) (w : DLHWeight)
    (wdf len uniq : termcount) :
  (0 < get_collection_size st)%N ->
  (0 < get_collection_freq st)%N ->
  get_average_length st = Fin a -> 0 < a ->
  (1 <= wdf)%N -> (wdf <= get_wdf_upper_bound st)%N ->
  (wdf <= len)%N -> is_termcount len ->
  let wt :=
    closed_form_wt (of_count (get_collection_size st))
                   (of_count (get_collection_freq st))
                   (get_average_length st) (of_count wdf) (of_count len) in
  let contribution :=
    closed_form_contribution (of_count (get_wqf st)) factor wt (of_count wdf) in
  sumpart_wt (init_log_constant st) wdf len = wt /\
  get_sumpart (init st factor w) wdf len uniq =
    Some (if (wt <=? 0.0)%D then 0.0%D else contribution) /\
  ((0.0 <? wt)%D = true ->
   get_sumpart (init st factor w) wdf len uniq = Some contribution).
Proof.
  intros HN HF Ha Hapos Hwdf Hocc Hle Hlen wt contribution.
  pose proof (sumpart_wt_closed_form st a wdf len HN HF Ha Hapos Hwdf Hle Hlen)
    as Hwt. fold wt in Hwt.
  assert (Hget : get_sumpart (init st factor w) wdf len uniq =
                 Some (if (wt <=? 0.0)%D then 0.0%D else contribution)).
  { rewrite init_regular by lia. unfold get_sumpart.
    assert (E : (wdf =? 0)%N = false) by (apply N.eqb_neq; lia).
    rewrite E. simpl bind. rewrite Hwt.
    destruct (wt <=? 0.0)%D; reflexivity. }
  split; [exact Hwt | split; [exact Hget |]].
  intro Hpos. rewrite Hget.
  assert (E : (wt <=? 0.0)%D = false).
  { destruct wt as [t | | |]; simpl in *; try reflexivity; try discriminate.
    apply Rltb_spec in Hpos. apply Rleb_false. assumption. }
  rewrite E. reflexivity.
Qed.

(** ** The scenario [N = 1000], [F = 50], average length 20, [wdf = 4],
    [len = 15] *)

Lemma div_lower_bound (a k c : R) : 0 < c -> k * c <= a -> k <= a / c.
Proof.
  intros Hc H. apply Rmult_le_reg_r with c; [assumption |].
  unfold Rdiv. rewrite Rmult_assoc, Rinv_l by lra. lra.
Qed.

Lemma ln_64 : ln 64 = 6 * ln 2.
Proof.
  replace 64 with (2 ^ 6) by (simpl; lra).
  rewrite ln_pow by lra. simpl INR. lra.
Qed.

Lemma ln_half : ln (1 / 2) = - ln 2.
Proof. unfold Rdiv. rewrite Rmult_1_l. apply ln_Rinv. lra. Qed.

Lemma scenario_wt_positive :
  exists t,
    closed_form_wt (of_count 1000) (of_count 50) (Fin 20)
                   (of_count 4) (of_count 15) = Fin t /\ 0 < t.
Proof.
  rewrite closed_form_wt_interior by (lia || lra). simpl Z.of_N.
  eexists. split; [reflexivity |].
  pose proof ln_2_pos as H2. pose proof PI2_3_2 as Hpi.
  assert (HA : 6 <= ln (4 / 15 * (1000 / 50) * 20) / ln 2).
  { apply div_lower_bound; [assumption |]. rewrite <- ln_64.
    apply ln_monotone; lra. }
  assert (HB : -1 <= ln (1 + - (4 / 15)) / ln 2).
  { apply div_lower_bound; [assumption |].
    replace (-1 * ln 2) with (ln (1 / 2)) by (rewrite ln_half; lra).
    apply ln_monotone; lra. }
  assert (HC : 0 <= ln (2 * PI * 4 * (1 + - (4 / 15))) / ln 2).
  { apply div_lower_bound; [assumption |]. rewrite Rmult_0_l, <- ln_1.
    apply ln_monotone; lra. }
  lra.
Qed.

Lemma scenario_sumpart_wt :
  sumpart_wt (init_log_constant scenario_stats) 4 15 =
  closed_form_wt (of_count 1000) (of_count 50) (Fin 20)
                 (of_count 4) (of_count 15).
Proof.
  apply (sumpart_wt_closed_form scenario_stats 20 4 15);
    try reflexivity; try lra; unfold is_termcount; lia.
Qed.

(** What [get_sumpart] computes once [init] has assigned the constants. *)
Lemma get_sumpart_regular
    (st : TermStats) (factor : double) (w : DLHWeight)
    (wdf len uniq : termcount) :
  get_wdf_upper_bound st <> 0%N -> wdf <> 0%N ->
  get_sumpart (init st factor w) wdf len uniq =
  Some (if (sumpart_wt (init_log_constant st) wdf len <=? 0.0)%D then 0.0%D
        else (init_wqf_product_factor st factor
              * sumpart_wt (init_log_constant st) wdf len
              / (of_count wdf + 0.5))%D).
Proof.
  intros Hst Hwdf. rewrite init_regular by assumption. unfold get_sumpart.
  apply N.eqb_neq in Hwdf. rewrite Hwdf. simpl bind.
  destruct (sumpart_wt (init_log_constant st) wdf len <=? 0.0)%D; reflexivity.
Qed.

Lemma get_sumpart_closed_form_witness :
  get_sumpart (init scenario_stats 1.0%D DLHWeight_new) 4 15 1 =
  Some (closed_form_contribution
          (of_count 1) 1.0%D
          (closed_form_wt (of_count 1000) (of_count 50) (Fin 20)
                          (of_count 4) (of_count 15))
          (of_count 4)).
Proof.
  assert (H1 : (0 < get_collection_size scenario_stats)%N) by reflexivity.
  assert (H2 : (0 < get_collection_freq scenario_stats)%N) by reflexivity.
  assert (H3 : get_average_length scenario_stats = Fin 20) by reflexivity.
  assert (H4 : 0 < 20) by lra.
  assert (H5 : (1 <= 4)%N) by lia.
  assert (H6 : (4 <= get_wdf_upper_bound scenario_stats)%N) by (simpl; lia).
  assert (H7 : (4 <= 15)%N) by lia.
  assert (H8 : is_termcount 15) by (unfold is_termcount; lia).
  destruct (get_sumpart_closed_form scenario_stats 20 1.0%D DLHWeight_new
              4 15 1 H1 H2 H3 H4 H5 H6 H7 H8) as [_ [_ H]].
  apply H. destruct scenario_wt_positive as [t [E Ht]].
  simpl get_collection_size. simpl get_collection_freq.
  simpl get_average_length. rewrite E. simpl. apply Rltb_true. assumption.
Defined.

(** ** Sign of the contribution *)

(** C2, as stated, fails.  A scheme initialised with the negative factor
    [-1] returns a negative value for the posting [wdf = 4], [len = 15];
    and with the factor 1, for the posting [wdf = len = 4], the value
    returned is [NaN], for which [0.0 <= NaN] is false. *)
Lemma get_sumpart_negative_or_nan :
  (exists r,
      get_sumpart (init scenario_stats (Fin (-1)) DLHWeight_new) 4 15 1
        = Some (Fin r) /\ r < 0) /\
  (get_sumpart (init scenario_stats 1.0%D DLHWeight_new) 4 4 1 = Some NaN /\
   (0.0 <=? NaN)%D = false).
Proof.
  split.
  - rewrite get_sumpart_regular by discriminate.
    rewrite scenario_sumpart_wt.
    destruct scenario_wt_positive as [t [-> Ht]].
    simpl dle. rewrite Rleb_false by assumption.
    unfold init_wqf_product_factor, of_count. simpl Z.of_N.
    rewrite !dmul_Fin, dadd_Fin, ddiv_Fin by lra.
    eexists. split; [reflexivity |].
    apply Rmult_lt_reg_r with (4 + 1 / 2); [lra |].
    unfold Rdiv at 1. rewrite Rmult_assoc, Rinv_l by lra. lra.
  - split; [| reflexivity].
    apply get_sumpart_wdf_eq_len; discriminate.
Qed.

(** A value that is [NaN] or not below zero. *)
Lemma nan_or_nonneg_mul (a b : double) :
  a = NaN \/ (0.0 <=? a)%D = true ->
  b = NaN \/ (0.0 <=? b)%D = true ->
  (a * b)%D = NaN \/ (0.0 <=? a * b)%D = true.
Proof.
  intros [-> | Ha] [-> | Hb]; try (left; reflexivity);
    try (left; apply dmul_NaN_r).
  destruct a as [a | | |], b as [b | | |]; try discriminate;
    simpl in Ha, Hb; try apply Rleb_spec in Ha; try apply Rleb_spec in Hb.
  - right. simpl. apply Rleb_true. apply Rmult_le_pos; assumption.
  - simpl. unfold signed_inf. destruct (Rlt_dec 0 a) as [H | H].
    + rewrite Rltb_true by assumption. right. reflexivity.
    + rewrite !Rltb_false by lra. left. reflexivity.
  - simpl. unfold signed_inf. destruct (Rlt_dec 0 b) as [H | H].
    + rewrite Rltb_true by assumption. right. reflexivity.
    + rewrite !Rltb_false by lra. left. reflexivity.
  - right. reflexivity.
Qed.

Lemma nan_or_nonneg_div (a : double) (d : R) :
  0 < d ->
  a = NaN \/ (0.0 <=? a)%D = true ->
  (a / Fin d)%D = NaN \/ (0.0 <=? a / Fin d)%D = true.
Proof.
  intros Hd [-> | Ha]; [left; reflexivity |].
  destruct a as [a | | |]; try discriminate.
  - rewrite ddiv_Fin by lra. right. simpl in *. apply Rleb_spec in Ha.
    apply Rleb_true. apply Rmult_le_pos; [assumption |].
    left. apply Rinv_0_lt_compat. assumption.
  - right. simpl. rewrite Rltb_false by lra. reflexivity.
Qed.

Lemma not_below_zero_nan_or_nonneg (a : double) :
  (a <? 0.0)%D = false -> a = NaN \/ (0.0 <=? a)%D = true.
Proof.
  destruct a as [a | | |]; simpl; intro H; try discriminate;
    try (left; reflexivity); try (right; reflexivity).
  right. apply Rleb_true. destruct (Rlt_dec a 0) as [Hlt | Hge]; [| lra].
  rewrite Rltb_true in H by assumption. discriminate.
Qed.

Lemma not_at_most_zero_nan_or_nonneg (a : double) :
  (a <=? 0.0)%D = false -> a = NaN \/ (0.0 <=? a)%D = true.
Proof.
  destruct a as [a | | |]; simpl; intro H; try discriminate;
    try (left; reflexivity); try (right; reflexivity).
  right. apply Rleb_true. destruct (Rle_dec a 0) as [Hle | Hgt]; [| lra].
  rewrite Rleb_true in H by assumption. discriminate.
Qed.

Lemma nan_or_nonneg_not_below_zero (a : double) :
  a = NaN \/ (0.0 <=? a)%D = true -> (a <? 0.0)%D = false.
Proof.
  intros [-> | H]; [reflexivity |].
  destruct a as [a | | |]; try discriminate; try reflexivity.
  simpl in *. apply Rleb_spec in H. apply Rltb_false. assumption.
Qed.

(** C2, amended: on a scheme initialised (with a wdf upper bound that is
    not 0) with a factor that is not negative, for every input the value
    returned by [get_sumpart] is never below [0.0]: a formula result
    [wt <= 0.0] is clamped to [0.0], and the value returned is [>= 0.0]
    whenever it is a number. *)
Theorem get_sumpart_never_below_zero
    (st : TermStats) (factor : double) (w : DLHWeight)
    (wdf len uniq : termcount) :
  get_wdf_upper_bound st <> 0%N ->
  (factor <? 0.0)%D = false ->
  exists r,
    get_sumpart (init st factor w) wdf len uniq = Some r /\
    (r <? 0.0)%D = false /\
    (r = NaN \/ (0.0 <=? r)%D = true) /\
    ((sumpart_wt (init_log_constant st) wdf len <=? 0.0)%D = true ->
     r = 0.0%D).
Proof.
  intros Hst Hfactor.
  destruct (N.eq_dec wdf 0) as [-> | Hwdf].
  - exists 0.0%D. simpl.
    rewrite Rltb_false, Rleb_true by lra. repeat split. right. reflexivity.
  - rewrite get_sumpart_regular by assumption.
    eexists. split; [reflexivity |].
    destruct (sumpart_wt (init_log_constant st) wdf len <=? 0.0)%D eqn:Hwt.
    + simpl. rewrite Rltb_false, Rleb_true by lra.
      repeat split. right. reflexivity.
    + assert (H : (init_wqf_product_factor st factor
                   * sumpart_wt (init_log_constant st) wdf len
                   / (of_count wdf + 0.5))%D = NaN
                  \/ (0.0 <=? init_wqf_product_factor st factor
                       * sumpart_wt (init_log_constant st) wdf len
                       / (of_count wdf + 0.5))%D = true).
      { unfold of_count at 2. rewrite dadd_Fin.
        apply nan_or_nonneg_div; [apply half_count_positive |].
        apply nan_or_nonneg_mul.
        - unfold init_wqf_product_factor. apply nan_or_nonneg_mul.
          + right. unfold of_count. simpl. apply Rleb_true.
            apply IZR_of_N_nonneg.
          + apply not_below_zero_nan_or_nonneg. assumption.
        - apply not_at_most_zero_nan_or_nonneg. assumption. }
      split; [apply nan_or_nonneg_not_below_zero; assumption |].
      split; [assumption | intro; discriminate].
Qed.

Lemma get_sumpart_never_below_zero_witness :
  exists r,
    get_sumpart (init scenario_stats 1.0%D DLHWeight_new) 4 15 1 = Some r /\
    (r <? 0.0)%D = false.
Proof.
  assert (H1 : get_wdf_upper_bound scenario_stats <> 0%N) by discriminate.
  assert (H2 : (1.0 <? 0.0)%D = false) by (simpl; apply Rltb_false; lra).
  destruct (get_sumpart_never_below_zero scenario_stats 1.0%D DLHWeight_new
              4 15 1 H1 H2) as [r [E [H _]]].
  exists r. split; assumption.
Defined.

(** ** Degenerate statistics and calls outside the bounds *)


(** ** The bound for regular statistics *)

Lemma dmin_Fin (a b : R) :
  exists m, dmin (Fin a) (Fin b) = Fin m /\ (m = a \/ m = b) /\ m <= a /\ m <= b.
Proof.
  unfold dmin. simpl. destruct (Rlt_dec b a) as [H | H].
  - rewrite Rltb_true by assumption. exists b. repeat split; auto; lra.
  - rewrite Rltb_false by lra. exists a. repeat split; auto; lra.
Qed.

Lemma max_product_positive (st : TermStats) :
  (1 <= get_wdf_upper_bound st)%N ->
  (2 <= get_doclength_upper_bound st)%N ->
  positive_finite (max_product st).
Proof.
  intros HW HL. unfold max_product, min_wdf_to_len, wdf_lower, of_count.
  set (W := IZR (Z.of_N (get_wdf_upper_bound st))).
  set (Lu := IZR (Z.of_N (get_doclength_upper_bound st))).
  assert (HW' : 1 <= W) by (apply IZR_le; lia).
  assert (HL' : 2 <= Lu) by (apply IZR_le; lia).
  rewrite !ddiv_Fin by lra.
  destruct (dmin_Fin W (Lu / 2)) as [v [-> [Hv [Hv1 Hv2]]]].
  assert (Hvpos : 0 < v) by (destruct Hv; lra).
  rewrite !ddiv_Fin by lra. rewrite !dsub_Fin, !dmul_Fin.
  assert (Hr : v / Lu <= 1 / 2).
  { apply Rmult_le_reg_r with Lu; [lra |]. unfold Rdiv at 1.
    rewrite Rmult_assoc, Rinv_l by lra. lra. }
  assert (Hi : 0 < 1 / Lu <= 1 / 2).
  { split; [apply Rdiv_lt_0_compat; lra |].
    apply Rmult_le_reg_r with Lu; [lra |]. unfold Rdiv at 1.
    rewrite Rmult_assoc, Rinv_l by lra. lra. }
  destruct (dmin_Fin (v * (1 + - (v / Lu))) (W * (1 + - (1 / Lu))))
    as [m [-> [[-> | ->] _]]].
  - eexists. split; [reflexivity | positive_product].
  - eexists. split; [reflexivity | positive_product].
Qed.

Lemma init_bound_finite (st : TermStats) (a : R) :
  (0 < get_collection_size st)%N ->
  (0 < get_collection_freq st)%N ->
  get_average_length st = Fin a -> 0 < a ->
  (1 <= get_wdf_upper_bound st)%N ->
  (2 <= get_doclength_upper_bound st)%N ->
  exists b, init_bound st = Fin b.
Proof.
  intros HN HF Ha Hapos HW HL.
  destruct (init_log_constant_positive st a Ha Hapos HN HF) as [c [Hc Hcpos]].
  destruct (max_product_positive st HW HL) as [m [Hm Hmpos]].
  unfold init_bound. rewrite Hc, Hm.
  unfold min_wdf_to_len, wdf_lower, of_count, M_PI.
  set (W := IZR (Z.of_N (get_wdf_upper_bound st))).
  set (Lu := IZR (Z.of_N (get_doclength_upper_bound st))).
  assert (HW' : 1 <= W) by (apply IZR_le; lia).
  assert (HL' : 2 <= Lu) by (apply IZR_le; lia).
  assert (Hi : 0 < 1 / Lu <= 1 / 2).
  { split; [apply Rdiv_lt_0_compat; lra |].
    apply Rmult_le_reg_r with Lu; [lra |]. unfold Rdiv at 1.
    rewrite Rmult_assoc, Rinv_l by lra. lra. }
  pose proof PI_RGT_0 as Hpi.
  rewrite !ddiv_Fin by lra. rewrite !dsub_Fin, !dmul_Fin, !dadd_Fin.
  rewrite !log2_pos; try positive_product.
  rewrite !dmul_Fin. rewrite !ddiv_Fin by lra. rewrite !dadd_Fin.
  eexists. reflexivity.
Qed.


(** ** The two unguarded cases, in general *)

(** On every scheme whose constants [init] has assigned, the posting of a
    document made of the one term ([wdf = len >= 1]) gets [NaN]. *)
Theorem get_sumpart_nan_on_one_term_document
    (st : TermStats) (factor : double) (w : DLHWeight) (wdf uniq : termcount) :
  get_wdf_upper_bound st <> 0%N -> (1 <= wdf)%N ->
  get_sumpart (init st factor w) wdf wdf uniq = Some NaN.
Proof.
  intros Hst Hwdf. apply get_sumpart_wdf_eq_len; [assumption | lia].
Qed.

Lemma get_sumpart_nan_on_one_term_document_witness :
  get_sumpart (init scenario_stats 1.0%D DLHWeight_new) 7 7 1 = Some NaN.
Proof.
  apply (get_sumpart_nan_on_one_term_document scenario_stats 1.0%D
           DLHWeight_new 7 1); [discriminate | lia].
Defined.

(** For every term that occurs in a collection whose length upper bound is
    1, whatever the other statistics and the factor, [get_maxpart()] is
    [NaN]. *)
Theorem get_maxpart_nan_when_len_upper_one
    (st : TermStats) (factor : double) (w : DLHWeight) :
  get_wdf_upper_bound st <> 0%N -> get_doclength_upper_bound st = 1%N ->
  get_maxpart (init st factor w) = Some NaN.
Proof.
  intros H1 H2. apply get_maxpart_len_upper_one; assumption.
Qed.

Lemma get_maxpart_nan_when_len_upper_one_witness :
  get_maxpart (init one_term_documents_stats (Fin 2) DLHWeight_new) = Some NaN.
Proof.
  apply (get_maxpart_nan_when_len_upper_one one_term_documents_stats (Fin 2)
           DLHWeight_new); [discriminate | reflexivity].
Defined.

(** ** The upper bound: real analysis

    In nats, the score of a posting [wdf = x], [len = l] is
    [(x * ln c - H + S) / (x + 1/2)], with [H] the entropy of the posting
    and [S = 1/2 * ln (2 * pi * x * (1 - x / l))]. *)

Lemma ln_le_sub_one (y : R) : 0 < y -> ln y <= y - 1.
Proof.
  intro Hy. pose proof (exp_ineq1_le (ln y)) as H.
  rewrite exp_ln in H by assumption. lra.
Qed.

Lemma ln_ge_one_sub_inv (y : R) : 0 < y -> 1 - / y <= ln y.
Proof.
  intro Hy. pose proof (ln_le_sub_one (/ y) (Rinv_0_lt_compat _ Hy)) as H.
  rewrite ln_Rinv in H by assumption. lra.
Qed.

Lemma ln_2_gt_half : / 2 < ln 2.
Proof. exact ln_lt_2. Qed.

Lemma ln_3_ge_1 : 1 <= ln 3.
Proof.
  rewrite <- (ln_exp 1). apply ln_monotone; [apply exp_pos | apply exp_le_3].
Qed.

Lemma PI_gt_3 : 3 < PI.
Proof. pose proof PI2_3_2. lra. Qed.

Lemma entropy_nats_sym (x d : R) : entropy_nats x d = entropy_nats d x.
Proof. unfold entropy_nats. rewrite (Rplus_comm d x). lra. Qed.

Lemma div_ge_2 (x d : R) : 0 < x -> x <= d -> 2 <= (x + d) / x.
Proof.
  intros Hx Hd. apply Rmult_le_reg_r with x; [assumption |].
  unfold Rdiv. rewrite Rmult_assoc, Rinv_l by lra. lra.
Qed.

Lemma entropy_nats_lower (x d : R) :
  0 < x -> x <= d ->
  x * ln ((x + d) / x) + x / 2 <= entropy_nats x d.
Proof.
  intros Hx Hd. unfold entropy_nats.
  assert (Hl : 0 < x + d) by lra.
  assert (H1 : 1 - / ((x + d) / d) <= ln ((x + d) / d)).
  { apply ln_ge_one_sub_inv. apply Rdiv_lt_0_compat; lra. }
  assert (E : / ((x + d) / d) = d / (x + d)) by (field; lra).
  rewrite E in H1.
  assert (H2 : x / 2 <= d * (1 - d / (x + d))).
  { replace (d * (1 - d / (x + d))) with (x * (d / (x + d))) by (field; lra).
    assert (/ 2 <= d / (x + d)).
    { apply Rmult_le_reg_r with (x + d); [lra |]. unfold Rdiv.
      rewrite Rmult_assoc, Rinv_l by lra. lra. }
    nra. }
  assert (H3 : d * (1 - d / (x + d)) <= d * ln ((x + d) / d)).
  { apply Rmult_le_compat_l; lra. }
  lra.
Qed.

Lemma entropy_nats_lower_const (x d : R) :
  0 < x -> x <= d -> x * (ln 2 + / 2) <= entropy_nats x d.
Proof.
  intros Hx Hd. pose proof (entropy_nats_lower x d Hx Hd) as H.
  assert (ln 2 <= ln ((x + d) / x)).
  { apply ln_monotone; [lra | apply div_ge_2; assumption]. }
  nra.
Qed.

(** The entropy of a posting is at least [ln 2 + 1/2]. *)
Lemma entropy_nats_ge_const (x d : R) :
  1 <= x -> 1 <= d -> ln 2 + / 2 <= entropy_nats x d.
Proof.
  intros Hx Hd. pose proof ln_2_gt_half.
  destruct (Rle_dec x d) as [H' | H'].
  - pose proof (entropy_nats_lower_const x d ltac:(lra) H'). nra.
  - rewrite entropy_nats_sym.
    pose proof (entropy_nats_lower_const d x ltac:(lra) ltac:(lra)). nra.
Qed.

(** The entropy dominates the third term of [wt]. *)
Lemma entropy_nats_dominates_aux (x d : R) :
  1 <= x -> x <= d ->
  / 2 * ln (PI * (x + d) / 2) <= entropy_nats x d.
Proof.
  intros Hx Hd. pose proof (entropy_nats_lower x d ltac:(lra) Hd) as H.
  pose proof ln_2_gt_half as H2. pose proof PI_gt_3 as Hpi3. pose proof PI_4 as Hpi4.
  assert (Hq : 2 <= (x + d) / x) by (apply div_ge_2; lra).
  assert (Hln : ln 2 <= ln ((x + d) / x)) by (apply ln_monotone; lra).
  assert (E : PI * (x + d) / 2 = (x + d) / x * (PI * x / 2)) by (field; lra).
  rewrite E, ln_mult by nra.
  pose proof (ln_le_sub_one (PI * x / 2) ltac:(nra)) as H3.
  nra.
Qed.

Lemma entropy_nats_dominates (x d : R) :
  1 <= x -> 1 <= d ->
  / 2 * ln (PI * (x + d) / 2) <= entropy_nats x d.
Proof.
  intros Hx Hd. destruct (Rle_dec x d) as [H | H].
  - apply entropy_nats_dominates_aux; assumption.
  - rewrite entropy_nats_sym, (Rplus_comm x d).
    apply entropy_nats_dominates_aux; lra.
Qed.

Lemma len_term_lower (Lu : R) : 2 <= Lu -> -1 <= (Lu - 1) * ln (1 - 1 / Lu).
Proof.
  intro H.
  assert (Hy : 0 < 1 - 1 / Lu).
  { assert (1 / Lu <= / 2).
    { unfold Rdiv. rewrite Rmult_1_l. apply Rinv_le_contravar; lra. }
    lra. }
  pose proof (ln_ge_one_sub_inv _ Hy) as H1.
  assert (E : 1 - / (1 - 1 / Lu) = - / (Lu - 1)) by (field; lra).
  rewrite E in H1.
  assert (E2 : -1 = (Lu - 1) * - / (Lu - 1)) by (field; lra).
  rewrite E2. apply Rmult_le_compat_l; lra.
Qed.

(** The first two logarithms of [wt], without the log constant. *)
Lemma posting_logs_entropy (x l : R) :
  0 < x -> x < l ->
  x * ln (x / l) + (l - x) * ln (1 - x / l) = - entropy_nats x (l - x).
Proof.
  intros Hx Hl. unfold entropy_nats.
  replace (x + (l - x)) with l by lra.
  replace (x / l) with (/ (l / x)) by (field; lra).
  replace (1 - / (l / x)) with (/ (l / (l - x))) by (field; lra).
  rewrite !ln_Rinv by (apply Rdiv_lt_0_compat; lra). lra.
Qed.

Lemma product_ge_half (x l : R) : 1 <= x -> x + 1 <= l -> / 2 <= x * (1 - x / l).
Proof.
  intros Hx Hl.
  replace (x * (1 - x / l)) with (x * (l - x) / l) by (field; lra).
  apply Rmult_le_reg_r with l; [lra |]. unfold Rdiv.
  rewrite Rmult_assoc, Rinv_l by lra.
  pose proof (Rmult_le_pos (x - 1) (l - x - 1) ltac:(lra) ltac:(lra)). nra.
Qed.

Lemma product_le_quarter (x l : R) : 0 < l -> x * (1 - x / l) <= l / 4.
Proof.
  intro Hl.
  replace (x * (1 - x / l)) with (x * (l - x) / l) by (field; lra).
  apply Rmult_le_reg_r with l; [lra |]. unfold Rdiv at 1.
  rewrite Rmult_assoc, Rinv_l by lra.
  pose proof (pow2_ge_0 (2 * x - l)). nra.
Qed.

(** Dividing by [wdf + 0.5] instead of [wdf_lower + 0.5]. *)
Lemma div_half_le (a x : R) : 0 <= a -> 1 <= x -> a / (x + / 2) <= a / (3 / 2).
Proof.
  intros Ha Hx. unfold Rdiv. apply Rmult_le_compat_l; [assumption |].
  apply Rinv_le_contravar; lra.
Qed.

Lemma stirling_term_le (q m x : R) :
  / 2 <= q -> q <= m -> 1 <= x ->
  / 2 * ln (2 * PI * q) / (x + / 2) <= / 2 * ln (2 * PI * m) / (3 / 2).
Proof.
  intros Hq Hm Hx. pose proof PI_gt_3 as Hpi.
  assert (H0 : 0 <= ln (2 * PI * q)).
  { rewrite <- ln_1. apply ln_monotone; nra. }
  assert (H1 : ln (2 * PI * q) <= ln (2 * PI * m)).
  { apply ln_monotone; nra. }
  apply Rle_trans with (/ 2 * ln (2 * PI * q) / (3 / 2)).
  - apply div_half_le; lra.
  - unfold Rdiv. apply Rmult_le_compat_r; [lra | lra].
Qed.

Lemma ln_4_ge_1 : 1 <= ln 4.
Proof.
  replace 4 with (2 * 2) by lra. rewrite ln_mult by lra.
  pose proof ln_2_gt_half. lra.
Qed.

Lemma ln_ge_1_of_ge_3 (y : R) : 3 <= y -> 1 <= ln y.
Proof.
  intro H. apply Rle_trans with (ln 3); [apply ln_3_ge_1 | apply ln_monotone; lra].
Qed.

(** What the slack of the third term has to cover when the term fills
    more than half of the document. *)
Lemma crowded_small (x l : R) :
  small_crowded_posting x l ->
  2 * x + 1 <= 3 * entropy_nats x (l - x) + (x - 1) * ln (PI * l / 2).
Proof.
  pose proof PI_gt_3 as Hpi. pose proof ln_2_gt_half as H2.
  unfold entropy_nats.
  intros [[-> ->] | [[-> ->] | [[-> ->] | [-> ->]]]].
  - replace (2 + (3 - 2)) with 3 by lra. replace (3 - 2) with 1 by lra.
    pose proof (ln_ge_one_sub_inv (3 / 2) ltac:(lra)) as H32.
    replace (/ (3 / 2)) with (2 / 3) in H32 by field.
    pose proof (ln_ge_1_of_ge_3 (3 / 1) ltac:(lra)).
    pose proof (ln_ge_1_of_ge_3 (PI * 3 / 2) ltac:(lra)).
    lra.
  - replace (3 + (4 - 3)) with 4 by lra. replace (4 - 3) with 1 by lra.
    pose proof (ln_ge_one_sub_inv (4 / 3) ltac:(lra)) as H43.
    replace (/ (4 / 3)) with (3 / 4) in H43 by field.
    pose proof (ln_ge_1_of_ge_3 (4 / 1) ltac:(lra)).
    pose proof (ln_ge_1_of_ge_3 (PI * 4 / 2) ltac:(lra)).
    lra.
  - replace (3 + (5 - 3)) with 5 by lra. replace (5 - 3) with 2 by lra.
    pose proof (ln_ge_one_sub_inv (5 / 3) ltac:(lra)) as H53.
    replace (/ (5 / 3)) with (3 / 5) in H53 by field.
    assert (ln 2 <= ln (5 / 2)) by (apply ln_monotone; lra).
    pose proof (ln_ge_1_of_ge_3 (PI * 5 / 2) ltac:(lra)).
    lra.
  - replace (4 + (5 - 4)) with 5 by lra. replace (5 - 4) with 1 by lra.
    pose proof (ln_ge_one_sub_inv (5 / 4) ltac:(lra)) as H54.
    replace (/ (5 / 4)) with (4 / 5) in H54 by field.
    pose proof (ln_ge_1_of_ge_3 (5 / 1) ltac:(lra)).
    assert (ln 6 <= ln (PI * 5 / 2)) by (apply ln_monotone; lra).
    assert (E6 : ln 6 = ln 2 + ln 3).
    { replace 6 with (2 * 3) by lra. apply ln_mult; lra. }
    pose proof ln_3_ge_1.
    lra.
Qed.

Lemma crowded_large (x l : R) :
  1 <= x -> x + 1 <= l -> 6 <= l ->
  2 * x + 1 <= 3 * entropy_nats x (l - x) + (x - 1) * ln (PI * l / 2).
Proof.
  intros Hx Hl H6. pose proof PI_gt_3 as Hpi. pose proof ln_2_gt_half as H2.
  pose proof (entropy_nats_ge_const x (l - x) Hx ltac:(lra)) as HH.
  assert (H9 : 2 <= ln (PI * l / 2)).
  { apply Rle_trans with (ln (3 * 3)).
    - rewrite ln_mult by lra. pose proof ln_3_ge_1. lra.
    - apply ln_monotone; nra. }
  nra.
Qed.

Lemma div_le_of_le_mul (a c r : R) : 0 < c -> a <= r * c -> a / c <= r.
Proof.
  intros Hc H. apply Rmult_le_reg_r with c; [assumption |].
  unfold Rdiv. rewrite Rmult_assoc, Rinv_l by lra. lra.
Qed.

Lemma first_term_le (x W g : R) :
  1 <= x -> x <= W -> 0 <= g -> x * g / (x + / 2) <= W * g / (W + / 2).
Proof.
  intros Hx HW Hg. apply div_le_of_le_mul; [lra |].
  replace (W * g / (W + / 2) * (x + / 2))
    with (g * (W * (x + / 2) / (W + / 2))) by (field; lra).
  rewrite (Rmult_comm x g). apply Rmult_le_compat_l; [assumption |].
  apply Rmult_le_reg_r with (W + / 2); [lra |]. unfold Rdiv.
  rewrite Rmult_assoc, Rinv_l by lra. nra.
Qed.

Lemma entropy_part_le (x l Lu m : R) :
  1 <= x -> x + 1 <= l -> l <= Lu ->
  x * (1 - x / l) <= m ->
  (l < 2 * x -> l / 4 <= m) ->
  (l < 2 * x -> l < 6 -> small_crowded_posting x l) ->
  (- entropy_nats x (l - x) + / 2 * ln (2 * PI * (x * (1 - x / l)))) / (x + / 2)
  <= (Lu - 1) * ln (1 - 1 / Lu) / (3 / 2) + / 2 * ln (2 * PI * m) / (3 / 2).
Proof.
  intros Hx Hl HLu Hq Hcrowd Hsmall.
  pose proof PI_gt_3 as Hpi. pose proof ln_2_gt_half as H2.
  pose proof (product_ge_half x l Hx Hl) as Hqh.
  pose proof (len_term_lower Lu ltac:(lra)) as Hb2.
  set (H := entropy_nats x (l - x)) in *.
  set (q := x * (1 - x / l)) in *.
  destruct (Rle_dec (2 * x) l) as [Hroomy | Hcrowded].
  - pose proof (stirling_term_le q m x Hqh Hq Hx) as H3.
    assert (HH : x * (ln 2 + / 2) <= H).
    { apply entropy_nats_lower_const; lra. }
    assert (H1 : - H / (x + / 2) <= - 1 / (3 / 2)).
    { apply div_le_of_le_mul; [lra |]. nra. }
    replace ((- H + / 2 * ln (2 * PI * q)) / (x + / 2))
      with (- H / (x + / 2) + / 2 * ln (2 * PI * q) / (x + / 2)) by (field; lra).
    lra.
  - assert (Hc : l < 2 * x) by lra.
    pose proof (Hcrowd Hc) as Hm.
    set (A := / 2 * ln (PI * l / 2)).
    assert (HqA : / 2 * ln (2 * PI * q) <= A).
    { unfold A. apply Rmult_le_compat_l; [lra |]. apply ln_monotone; [nra |].
      pose proof (product_le_quarter x l ltac:(lra)). fold q in H0. nra. }
    assert (HmA : A <= / 2 * ln (2 * PI * m)).
    { unfold A. apply Rmult_le_compat_l; [lra |]. apply ln_monotone; nra. }
    assert (Hstar : 2 * x + 1 <= 3 * H + (x - 1) * ln (PI * l / 2)).
    { destruct (Rlt_dec l 6) as [H6 | H6].
      - apply crowded_small. apply Hsmall; assumption.
      - apply crowded_large; lra. }
    assert (HE : (- H + A) / (x + / 2) <= (A - 1) / (3 / 2)).
    { apply div_le_of_le_mul; [lra |]. unfold A. unfold A in HqA, HmA. nra. }
    assert (HE' : (- H + / 2 * ln (2 * PI * q)) / (x + / 2) <= (- H + A) / (x + / 2)).
    { unfold Rdiv. apply Rmult_le_compat_r; [| lra].
      left. apply Rinv_0_lt_compat. lra. }
    lra.
Qed.

(** The natural-logarithm form of the bound. *)
Lemma posting_bound_nats (x l W Lu m c : R) :
  1 <= x -> x <= W -> x + 1 <= l -> l <= Lu -> 1 <= c ->
  x * (1 - x / l) <= m ->
  (l < 2 * x -> l / 4 <= m) ->
  (l < 2 * x -> l < 6 -> small_crowded_posting x l) ->
  (x * ln (x / l * c) + (l - x) * ln (1 - x / l)
   + / 2 * ln (2 * PI * (x * (1 - x / l)))) / (x + / 2)
  <= W * ln c / (W + / 2) + (Lu - 1) * ln (1 - 1 / Lu) / (3 / 2)
     + / 2 * ln (2 * PI * m) / (3 / 2).
Proof.
  intros Hx HW Hl HLu Hc Hq Hcrowd Hsmall.
  assert (Hp : 0 < x / l) by (apply Rdiv_lt_0_compat; lra).
  rewrite ln_mult by lra.
  assert (Hg : 0 <= ln c) by (rewrite <- ln_1; apply ln_monotone; lra).
  pose proof (first_term_le x W (ln c) Hx HW Hg) as H1.
  pose proof (entropy_part_le x l Lu m Hx Hl HLu Hq Hcrowd Hsmall) as H2.
  rewrite <- (posting_logs_entropy x l) in H2 by lra.
  replace ((x * (ln (x / l) + ln c) + (l - x) * ln (1 - x / l)
            + / 2 * ln (2 * PI * (x * (1 - x / l)))) / (x + / 2))
    with (x * ln c / (x + / 2)
          + (x * ln (x / l) + (l - x) * ln (1 - x / l)
             + / 2 * ln (2 * PI * (x * (1 - x / l)))) / (x + / 2))
    by (field; lra).
  lra.
Qed.

(** When the log constant is at most 1 the formula result is not positive. *)
Lemma posting_wt_nonpos_nats (x l c : R) :
  1 <= x -> x + 1 <= l -> 0 < c -> c <= 1 ->
  x * ln (x / l * c) + (l - x) * ln (1 - x / l)
  + / 2 * ln (2 * PI * (x * (1 - x / l))) <= 0.
Proof.
  intros Hx Hl Hc Hc1. pose proof PI_gt_3 as Hpi.
  assert (Hp : 0 < x / l) by (apply Rdiv_lt_0_compat; lra).
  rewrite ln_mult by lra.
  assert (Hg : ln c <= 0) by (rewrite <- ln_1; apply ln_monotone; lra).
  pose proof (posting_logs_entropy x l ltac:(lra) ltac:(lra)) as HE.
  pose proof (entropy_nats_dominates x (l - x) Hx ltac:(lra)) as HD.
  replace (x + (l - x)) with l in HD by lra.
  pose proof (product_le_quarter x l ltac:(lra)) as Hq.
  pose proof (product_ge_half x l Hx Hl) as Hqh.
  assert (HS : ln (2 * PI * (x * (1 - x / l))) <= ln (PI * l / 2)).
  { apply ln_monotone; nra. }
  nra.
Qed.

(** ** The upper bound: [max_product] *)

(** Each of the two candidates of [init] bounds [wdf * (1 - wdf / len)]
    over the admissible postings, and is at least [len / 4] for a posting
    in which the term fills more than half of the document. *)
Lemma max_product_candidates (W Lu v m x l : R) :
  1 <= x -> x <= W -> x <= l -> l <= Lu -> 2 <= Lu ->
  v = W \/ v = Lu / 2 -> v <= W -> v <= Lu / 2 ->
  m = v * (1 - v / Lu) \/ m = W * (1 - 1 / Lu) ->
  x * (1 - x / l) <= m /\ (l < 2 * x -> l / 4 <= m).
Proof.
  intros Hx HW Hl HLu H2 Hv HvW HvL Hm.
  assert (Hi : 0 < / Lu) by (apply Rinv_0_lt_compat; lra).
  assert (Hi2 : / Lu <= / 2) by (apply Rinv_le_contravar; lra).
  assert (Hxl : x / l <= 1).
  { apply div_le_of_le_mul; lra. }
  assert (Hxl' : / Lu <= x / l).
  { apply Rmult_le_reg_r with l; [lra |]. unfold Rdiv.
    rewrite Rmult_assoc, Rinv_l by lra.
    apply Rmult_le_reg_r with Lu; [lra |].
    rewrite (Rmult_comm (/ Lu)), Rmult_assoc, Rinv_l by lra. nra. }
  assert (HxLu : x / Lu <= x / l).
  { unfold Rdiv. apply Rmult_le_compat_l; [lra |].
    apply Rinv_le_contravar; lra. }
  destruct Hm as [-> | ->].
  - assert (Hh : x * (1 - x / Lu) <= v * (1 - v / Lu)).
    { destruct (Rle_dec x v) as [Hxv | Hxv].
      - replace (v * (1 - v / Lu) ) with
          (x * (1 - x / Lu) + (v - x) * (1 - (v + x) / Lu)) by (field; lra).
        assert ((v + x) / Lu <= 1) by (apply div_le_of_le_mul; lra).
        nra.
      - destruct Hv as [-> | ->]; [lra |].
        replace (Lu / 2 * (1 - Lu / 2 / Lu)) with (Lu / 4) by (field; lra).
        apply product_le_quarter. lra. }
    split; [nra |].
    intro Hc. destruct Hv as [-> | ->].
    + assert (W / Lu <= / 2).
      { apply div_le_of_le_mul; lra. }
      nra.
    + replace (Lu / 2 * (1 - Lu / 2 / Lu)) with (Lu / 4) by (field; lra). lra.
  - unfold Rdiv at 2. rewrite Rmult_1_l. split; [nra |].
    intro Hc. nra.
Qed.

Lemma max_product_value (st : TermStats) :
  (1 <= get_wdf_upper_bound st)%N ->
  (2 <= get_doclength_upper_bound st)%N ->
  exists m,
    max_product st = Fin m /\ 0 < m /\
    forall x l,
      1 <= x -> x <= IZR (Z.of_N (get_wdf_upper_bound st)) ->
      x <= l -> l <= IZR (Z.of_N (get_doclength_upper_bound st)) ->
      x * (1 - x / l) <= m /\ (l < 2 * x -> l / 4 <= m).
Proof.
  intros HW HL.
  destruct (max_product_positive st HW HL) as [m0 [Hm0 Hm0pos]].
  revert Hm0. unfold max_product, min_wdf_to_len, wdf_lower, of_count.
  set (W := IZR (Z.of_N (get_wdf_upper_bound st))).
  set (Lu := IZR (Z.of_N (get_doclength_upper_bound st))).
  assert (HW' : 1 <= W) by (apply IZR_le; lia).
  assert (HL' : 2 <= Lu) by (apply IZR_le; lia).
  rewrite !ddiv_Fin by lra.
  destruct (dmin_Fin W (Lu / 2)) as [v [-> [Hv [Hv1 Hv2]]]].
  rewrite !ddiv_Fin by lra. rewrite !dsub_Fin, !dmul_Fin.
  destruct (dmin_Fin (v * (1 + - (v / Lu))) (W * (1 + - (1 / Lu))))
    as [m [-> [Hm _]]].
  intro E. injection E as <-.
  exists m. split; [reflexivity | split; [assumption |]].
  intros x l Hx HxW Hxl HlLu.
  apply (max_product_candidates W Lu v m x l); assumption.
Qed.

(** ** The upper bound on the scores of the postings *)

Lemma init_bound_value (st : TermStats) (c m : R) :
  init_log_constant st = Fin c -> 0 < c ->
  max_product st = Fin m -> 0 < m ->
  (1 <= get_wdf_upper_bound st)%N ->
  (2 <= get_doclength_upper_bound st)%N ->
  init_bound st =
  Fin (analytic_bound c (IZR (Z.of_N (get_wdf_upper_bound st)))
                        (IZR (Z.of_N (get_doclength_upper_bound st))) m).
Proof.
  intros Hc Hcpos Hm Hmpos HW HL.
  unfold init_bound. rewrite Hc, Hm.
  unfold min_wdf_to_len, wdf_lower, of_count, M_PI, analytic_bound.
  set (W := IZR (Z.of_N (get_wdf_upper_bound st))).
  set (Lu := IZR (Z.of_N (get_doclength_upper_bound st))).
  assert (HW' : 1 <= W) by (apply IZR_le; lia).
  assert (HL' : 2 <= Lu) by (apply IZR_le; lia).
  assert (Hi : 0 < 1 / Lu <= 1 / 2).
  { split; [apply Rdiv_lt_0_compat; lra |].
    apply div_le_of_le_mul; lra. }
  pose proof PI_RGT_0 as Hpi.
  rewrite !ddiv_Fin by lra. rewrite !dsub_Fin, !dmul_Fin, !dadd_Fin.
  rewrite !log2_pos; try positive_product.
  rewrite !dmul_Fin. rewrite !ddiv_Fin by lra. rewrite !dadd_Fin.
  reflexivity.
Qed.

(** The value [get_maxpart()] returns for regular statistics. *)
Lemma get_maxpart_regular_value
    (st : TermStats) (f b : R) (w : DLHWeight) :
  get_wdf_upper_bound st <> 0%N ->
  init_bound st = Fin b ->
  (b < 0 -> get_maxpart (init st (Fin f) w) = Some 0.0%D) /\
  (0 <= b ->
   get_maxpart (init st (Fin f) w)
   = Some (Fin (b * (IZR (Z.of_N (get_wqf st)) * f)))).
Proof.
  intros Hst Hb. rewrite init_regular by assumption. simpl get_maxpart.
  rewrite Hb. simpl dlt. split; intro H.
  - rewrite Rltb_true by assumption. reflexivity.
  - rewrite Rltb_false by assumption. reflexivity.
Qed.

(** The value [get_sumpart] returns for [0 < wdf < len]. *)
Lemma get_sumpart_interior_value
    (st : TermStats) (c f : R) (w : DLHWeight) (wdf len uniq : termcount) :
  get_wdf_upper_bound st <> 0%N ->
  init_log_constant st = Fin c -> 0 < c ->
  (0 < wdf)%N -> (wdf < len)%N ->
  let x := IZR (Z.of_N wdf) in
  let t := interior_wt c x (IZR (Z.of_N len))
                       (IZR (Z.of_N (termcount_sub len wdf))) in
  (t <= 0 -> get_sumpart (init st (Fin f) w) wdf len uniq = Some 0.0%D) /\
  (0 < t ->
   get_sumpart (init st (Fin f) w) wdf len uniq
   = Some (Fin (IZR (Z.of_N (get_wqf st)) * f * t / (x + 1 / 2)))).
Proof.
  intros Hst Hc Hcpos Hwdf Hlen x t.
  rewrite get_sumpart_regular by (assumption || lia).
  rewrite Hc, (sumpart_wt_interior wdf len Hwdf Hlen c Hcpos).
  fold x. fold (interior_wt c x (IZR (Z.of_N len))
                  (IZR (Z.of_N (termcount_sub len wdf)))). fold t.
  simpl dle. split; intro H.
  - rewrite Rleb_true by assumption. reflexivity.
  - rewrite Rleb_false by assumption.
    unfold init_wqf_product_factor, of_count. fold x.
    rewrite !dmul_Fin, dadd_Fin. rewrite ddiv_Fin; [reflexivity |].
    pose proof (half_count_positive wdf). fold x in H0. lra.
Qed.

(** [wt] and the analytic bound in nats. *)
Lemma interior_wt_nats (c x l : R) :
  0 < x -> x < l ->
  interior_wt c x l (l - x) =
  (x * ln (x / l * c) + (l - x) * ln (1 - x / l)
   + / 2 * ln (2 * PI * (x * (1 - x / l)))) / ln 2.
Proof.
  intros Hx Hl. unfold interior_wt. pose proof ln_2_pos.
  replace (2 * PI * x * (1 + - (x / l))) with (2 * PI * (x * (1 - x / l)))
    by ring.
  replace (1 + - (x / l)) with (1 - x / l) by ring.
  field. lra.
Qed.

Lemma analytic_bound_nats (c W Lu m : R) :
  0 < W ->
  analytic_bound c W Lu m =
  (W * ln c / (W + / 2) + (Lu - 1) * ln (1 - 1 / Lu) / (3 / 2)
   + / 2 * ln (2 * PI * m) / (3 / 2)) / ln 2.
Proof.
  intro HW. unfold analytic_bound. pose proof ln_2_pos.
  replace (1 + - (1 / Lu)) with (1 - 1 / Lu) by ring.
  field. lra.
Qed.

Lemma small_crowded_counts (wdf len : N) :
  (wdf < len)%N ->
  IZR (Z.of_N len) < 2 * IZR (Z.of_N wdf) -> IZR (Z.of_N len) < 6 ->
  small_crowded_posting (IZR (Z.of_N wdf)) (IZR (Z.of_N len)).
Proof.
  intros Hlt H2 H6. apply lt_IZR in H6.
  replace (2 * IZR (Z.of_N wdf)) with (IZR (2 * Z.of_N wdf)) in H2
    by (rewrite mult_IZR; reflexivity).
  apply lt_IZR in H2. unfold small_crowded_posting.
  assert (H : ((wdf = 2 /\ len = 3) \/ (wdf = 3 /\ len = 4)
               \/ (wdf = 3 /\ len = 5) \/ (wdf = 4 /\ len = 5))%N) by lia.
  destruct H as [[-> ->] | [[-> ->] | [[-> ->] | [-> ->]]]]; simpl; auto 6.
Qed.

(** The formula result of every admissible posting with [wdf < len],
    divided by [wdf + 0.5], is at most the analytic bound when the log
    constant is at least 1, and is not positive otherwise. *)
Lemma interior_wt_below_bound (st : TermStats) (c m : R) (wdf len : termcount) :
  0 < c ->
  (1 <= wdf)%N -> (wdf <= get_wdf_upper_bound st)%N ->
  (wdf < len)%N -> (len <= get_doclength_upper_bound st)%N ->
  0 < m ->
  (forall x l,
      1 <= x -> x <= IZR (Z.of_N (get_wdf_upper_bound st)) ->
      x <= l -> l <= IZR (Z.of_N (get_doclength_upper_bound st)) ->
      x * (1 - x / l) <= m /\ (l < 2 * x -> l / 4 <= m)) ->
  let x := IZR (Z.of_N wdf) in
  let l := IZR (Z.of_N len) in
  let t := interior_wt c x l (l - x) in
  let b := analytic_bound c (IZR (Z.of_N (get_wdf_upper_bound st)))
                          (IZR (Z.of_N (get_doclength_upper_bound st))) m in
  (c <= 1 -> t <= 0) /\ (1 <= c -> t / (x + 1 / 2) <= b).
Proof.
  intros Hc Hwdf HW Hlen HLu Hm Hmp x l t b.
  assert (Hx : 1 <= x) by (apply IZR_le; lia).
  assert (Hl : x + 1 <= l).
  { unfold x, l. rewrite <- plus_IZR. apply IZR_le. lia. }
  assert (HxW : x <= IZR (Z.of_N (get_wdf_upper_bound st))) by (apply IZR_le; lia).
  assert (HlLu : l <= IZR (Z.of_N (get_doclength_upper_bound st)))
    by (apply IZR_le; lia).
  pose proof ln_2_pos as H2.
  unfold t. rewrite interior_wt_nats by lra.
  split; intro Hc1.
  - pose proof (posting_wt_nonpos_nats x l c Hx Hl Hc Hc1) as H.
    apply Rmult_le_reg_r with (ln 2); [assumption |].
    unfold Rdiv. rewrite Rmult_assoc, Rinv_l by lra. lra.
  - unfold b. rewrite analytic_bound_nats by lra.
    destruct (Hmp x l Hx HxW ltac:(lra) HlLu) as [Hq Hcrowd].
    pose proof (posting_bound_nats x l _ _ m c Hx HxW Hl HlLu Hc1 Hq Hcrowd
                  (small_crowded_counts wdf len Hlen)) as H.
    replace (1 / 2) with (/ 2) by lra.
    set (T := x * ln (x / l * c) + _ + _) in *.
    set (B := _ + _ + _) in H |- *.
    replace (T / ln 2 / (x + / 2)) with (T / (x + / 2) / ln 2)
      by (field; lra).
    unfold Rdiv at 1 3. apply Rmult_le_compat_r; [| assumption].
    left. apply Rinv_0_lt_compat. assumption.
Qed.


(** [max_product], the minimum of the two candidates of [init], bounds the
    product [wdf * (1 - wdf / len)] of the third logarithm for every
    posting within the term's bounds. *)
Theorem max_product_bounds_posting_product
    (st : TermStats) (wdf len : termcount) :
  (1 <= wdf)%N -> (wdf <= get_wdf_upper_bound st)%N ->
  (wdf <= len)%N -> (len <= get_doclength_upper_bound st)%N ->
  (2 <= get_doclength_upper_bound st)%N ->
  exists q m,
    (of_count wdf * one_minus_wdf_to_len wdf len)%D = Fin q /\
    max_product st = Fin m /\
    0 <= q <= m /\
    (of_count wdf * one_minus_wdf_to_len wdf len <=? max_product st)%D = true.
Proof.
  intros Hwdf HW Hlen HLu H2.
  destruct (max_product_value st ltac:(lia) H2) as [m [Hm [Hmpos Hmp]]].
  set (x := IZR (Z.of_N wdf)). set (l := IZR (Z.of_N len)).
  assert (Hx : 1 <= x) by (apply IZR_le; lia).
  assert (Hl : x <= l) by (apply IZR_le; lia).
  destruct (Hmp x l Hx ltac:(apply IZR_le; lia) Hl ltac:(apply IZR_le; lia))
    as [Hq _].
  assert (E : (of_count wdf * one_minus_wdf_to_len wdf len)%D
              = Fin (x * (1 - x / l))).
  { unfold one_minus_wdf_to_len, wdf_to_len, of_count. fold x l.
    rewrite ddiv_Fin by lra. reflexivity. }
  exists (x * (1 - x / l)), m. rewrite E, Hm.
  assert (H0 : 0 <= x * (1 - x / l)).
  { apply Rmult_le_pos; [lra |].
    assert (x / l <= 1) by (apply div_le_of_le_mul; lra). lra. }
  repeat split; try assumption.
  simpl. apply Rleb_true. assumption.
Qed.

Lemma max_product_bounds_posting_product_witness :
  exists q m,
    (of_count 4 * one_minus_wdf_to_len 4 15)%D = Fin q /\
    max_product scenario_stats = Fin m /\
    0 <= q <= m /\
    (of_count 4 * one_minus_wdf_to_len 4 15 <=? max_product scenario_stats)%D
    = true.
Proof.
  apply (max_product_bounds_posting_product scenario_stats 4 15);
    simpl; lia.
Defined.

(** ** What [init] leaves behind *)

(** [init] with the same statistics and factor is idempotent; with a wdf
    upper bound that is not 0 it assigns all three members, so the state
    before it does not matter and a reused object scores like a new one. *)
Theorem init_overwrites
    (st : TermStats) (factor : double) (w w' : DLHWeight) :
  init st factor (init st factor w) = init st factor w /\
  (get_wdf_upper_bound st <> 0%N ->
   init st factor w = init st factor w' /\
   forall st' factor' wdf len uniq,
     get_sumpart (init st factor (init st' factor' w)) wdf len uniq
     = get_sumpart (init st factor DLHWeight_new) wdf len uniq) /\
  upper_bound (init st factor w) <> None.
Proof.
  destruct (N.eq_dec (get_wdf_upper_bound st) 0) as [H0 | H0].
  - split; [| split].
    + rewrite !init_degenerate by assumption. reflexivity.
    + intro H. contradiction.
    + rewrite init_degenerate by assumption. discriminate.
  - split; [| split].
    + rewrite !init_regular by assumption. reflexivity.
    + intros _. split.
      * rewrite !init_regular by assumption. reflexivity.
      * intros. rewrite !init_regular by assumption. reflexivity.
    + rewrite init_regular by assumption. discriminate.
Qed.

(** Whatever the statistics, when the factor is not negative [init] leaves
    an upper bound that is never below [0.0]: it is [0.0], a number that
    is not negative, [+inf] or [NaN]. *)
Theorem get_maxpart_never_below_zero
    (st : TermStats) (factor : double) (w : DLHWeight) :
  (factor <? 0.0)%D = false ->
  exists m,
    get_maxpart (init st factor w) = Some m /\
    (m <? 0.0)%D = false /\
    (m = NaN \/ (0.0 <=? m)%D = true).
Proof.
  intro Hfactor.
  assert (Hzero : (0.0 <? 0.0)%D = false /\ (0.0 <=? 0.0)%D = true).
  { simpl. rewrite Rltb_false, Rleb_true by lra. split; reflexivity. }
  destruct (N.eq_dec (get_wdf_upper_bound st) 0) as [H0 | H0].
  - rewrite init_degenerate by assumption. exists 0.0%D.
    split; [reflexivity | split; [apply Hzero | right; apply Hzero]].
  - rewrite init_regular by assumption. simpl get_maxpart.
    eexists. split; [reflexivity |].
    destruct (init_bound st <? 0.0)%D eqn:Hb.
    + split; [apply Hzero | right; apply Hzero].
    + assert (H : (init_bound st * init_wqf_product_factor st factor)%D = NaN
                  \/ (0.0 <=? init_bound st
                              * init_wqf_product_factor st factor)%D = true).
      { apply nan_or_nonneg_mul.
        - apply not_below_zero_nan_or_nonneg. assumption.
        - unfold init_wqf_product_factor. apply nan_or_nonneg_mul.
          + right. unfold of_count. simpl. apply Rleb_true.
            apply IZR_of_N_nonneg.
          + apply not_below_zero_nan_or_nonneg. assumption. }
      split; [apply nan_or_nonneg_not_below_zero; assumption | assumption].
Qed.

Lemma get_maxpart_never_below_zero_witness :
  exists m,
    get_maxpart (init one_term_documents_stats 1.0%D DLHWeight_new) = Some m /\
    (m <? 0.0)%D = false.
Proof.
  assert (H : (1.0 <? 0.0)%D = false) by (simpl; apply Rltb_false; lra).
  destruct (get_maxpart_never_below_zero one_term_documents_stats 1.0%D
              DLHWeight_new H) as [m [E [Hm _]]].
  exists m. split; assumption.
Defined.

(** ** The collection frequency *)

Lemma init_log_constant_value (st : TermStats) (a : R) :
  get_average_length st = Fin a ->
  (0 < get_collection_freq st)%N ->
  init_log_constant st =
  Fin (a * IZR (Z.of_N (get_collection_size st))
       / IZR (Z.of_N (get_collection_freq st))).
Proof.
  intros Ha HF. unfold init_log_constant. rewrite Ha. unfold of_count.
  rewrite dmul_Fin. pose proof (IZR_of_N_pos _ HF). apply ddiv_Fin. lra.
Qed.




(** ** Calls outside the bounds: [len < wdf] *)

Lemma sumpart_wt_len_lt_wdf (lc : double) (wdf len : termcount) :
  (len < wdf)%N -> sumpart_wt lc wdf len = NaN.
Proof.
  intro H. unfold sumpart_wt.
  assert (Hx : 0 < IZR (Z.of_N wdf)) by (apply IZR_of_N_pos; lia).
  assert (E : log2 (one_minus_wdf_to_len wdf len) = NaN).
  { unfold one_minus_wdf_to_len, wdf_to_len, of_count.
    destruct (N.eq_dec len 0) as [-> | Hlen].
    - simpl Z.of_N. simpl ddiv. rewrite Reqb_true by reflexivity.
      unfold signed_inf. rewrite Rltb_true by assumption. reflexivity.
    - assert (Hl : 0 < IZR (Z.of_N len)) by (apply IZR_of_N_pos; lia).
      assert (Hlt : IZR (Z.of_N len) < IZR (Z.of_N wdf)) by (apply IZR_lt; lia).
      rewrite ddiv_Fin by lra. rewrite dsub_Fin. apply log2_neg.
      assert (1 < IZR (Z.of_N wdf) / IZR (Z.of_N len)).
      { apply Rmult_lt_reg_r with (IZR (Z.of_N len)); [assumption |].
        unfold Rdiv. rewrite Rmult_assoc, Rinv_l by lra. lra. }
      lra. }
  rewrite E, dmul_NaN_r, dadd_NaN_r. reflexivity.
Qed.

(** A call with [len < wdf] (which includes [len = 0]) on a scheme whose
    constants [init] has assigned returns [NaN], whatever the statistics
    and the factor: [1 - wdf / len] is negative, or [-inf] when [len] is
    0, and its logarithm is not a number. *)
Theorem get_sumpart_nan_when_len_below_wdf
    (st : TermStats) (factor : double) (w : DLHWeight)
    (wdf len uniq : termcount) :
  get_wdf_upper_bound st <> 0%N -> (len < wdf)%N ->
  get_sumpart (init st factor w) wdf len uniq = Some NaN.
Proof.
  intros Hst H. rewrite get_sumpart_regular by (assumption || lia).
  rewrite sumpart_wt_len_lt_wdf by assumption.
  simpl dle. rewrite dmul_NaN_r. reflexivity.
Qed.

Lemma get_sumpart_nan_when_len_below_wdf_witness :
  get_sumpart (init scenario_stats 1.0%D DLHWeight_new) 4 0 1 = Some NaN /\
  get_sumpart (init scenario_stats 1.0%D DLHWeight_new) 4 3 1 = Some NaN.
Proof.
  split;
    apply (get_sumpart_nan_when_len_below_wdf scenario_stats 1.0%D
             DLHWeight_new); (discriminate || reflexivity).
Defined.

(** ** A collection frequency of 0 beside a wdf upper bound that is not 0 *)

(** [init] divides by the collection frequency without a guard of its own:
    with a collection frequency of 0 and a wdf upper bound that is not 0
    (positive collection size, average length, query weight and factor),
    the log constant is [+inf], and so are the score of every posting
    [0 < wdf < len] and the upper bound. *)
Theorem zero_collection_freq_gives_infinity
    (st : TermStats) (a f : R) (w : DLHWeight) (wdf len uniq : termcount) :
  get_collection_freq st = 0%N ->
  (0 < get_collection_size st)%N ->
  get_average_length st = Fin a -> 0 < a ->
  (0 < get_wqf st)%N -> 0 < f ->
  (1 <= get_wdf_upper_bound st)%N ->
  (2 <= get_doclength_upper_bound st)%N ->
  (0 < wdf)%N -> (wdf < len)%N ->
  init_log_constant st = PInf /\
  get_sumpart (init st (Fin f) w) wdf len uniq = Some PInf /\
  get_maxpart (init st (Fin f) w) = Some PInf.
Proof.
  intros HF HN Ha Hapos Hq Hf HW HL Hwdf Hlen.
  pose proof (IZR_of_N_pos _ HN) as Hn. pose proof (IZR_of_N_pos _ Hq) as Hq'.
  assert (Hc : init_log_constant st = PInf).
  { unfold init_log_constant. rewrite Ha, HF. unfold of_count.
    rewrite dmul_Fin. simpl Z.of_N. simpl ddiv. rewrite Reqb_true by reflexivity.
    unfold signed_inf. rewrite Rltb_true by (apply Rmult_lt_0_compat; lra).
    reflexivity. }
  assert (Hwpf : init_wqf_product_factor st (Fin f)
                 = Fin (IZR (Z.of_N (get_wqf st)) * f)) by reflexivity.
  assert (Hqf : 0 < IZR (Z.of_N (get_wqf st)) * f)
    by (apply Rmult_lt_0_compat; lra).
  split; [assumption | split].
  - rewrite get_sumpart_regular by lia. rewrite Hc, Hwpf.
    destruct (interior_reals wdf len Hwdf Hlen) as [Hx Hl].
    destruct (ratio_interior wdf len Hwdf Hlen) as [H0 H1].
    assert (E : sumpart_wt PInf wdf len = PInf).
    { unfold sumpart_wt.
      rewrite (one_minus_interior wdf len Hwdf Hlen).
      rewrite (wdf_to_len_interior wdf len Hwdf Hlen).
      unfold of_count, M_PI. rewrite !dmul_Fin.
      rewrite !log2_pos by (pose proof PI_RGT_0; positive_product).
      simpl. unfold signed_inf. rewrite !Rltb_true by assumption.
      reflexivity. }
    rewrite E. simpl. unfold signed_inf. rewrite Rltb_true by assumption.
    pose proof (half_count_positive wdf).
    simpl ddiv. rewrite Rltb_false by lra. reflexivity.
  - rewrite init_regular by lia. simpl get_maxpart. rewrite Hwpf.
    destruct (max_product_positive st HW HL) as [m [Hm Hmpos]].
    assert (E : init_bound st = PInf).
    { unfold init_bound. rewrite Hc, Hm.
      unfold min_wdf_to_len, wdf_lower, of_count, M_PI.
      set (W := IZR (Z.of_N (get_wdf_upper_bound st))).
      set (Lu := IZR (Z.of_N (get_doclength_upper_bound st))).
      assert (HW' : 1 <= W) by (apply IZR_le; lia).
      assert (HL' : 2 <= Lu) by (apply IZR_le; lia).
      assert (Hi : 0 < 1 / Lu <= 1 / 2).
      { split; [apply Rdiv_lt_0_compat; lra |].
        apply div_le_of_le_mul; lra. }
      pose proof PI_RGT_0 as Hpi.
      rewrite !ddiv_Fin by lra. rewrite !dsub_Fin, !dmul_Fin, !dadd_Fin.
      rewrite !log2_pos by positive_product.
      rewrite !dmul_Fin. rewrite !ddiv_Fin by lra.
      simpl. unfold signed_inf. rewrite Rltb_true by lra.
      simpl ddiv. rewrite Rltb_false by lra. reflexivity. }
    rewrite E. simpl. unfold signed_inf. rewrite Rltb_true by assumption.
    reflexivity.
Qed.

Lemma zero_collection_freq_gives_infinity_witness :
  init_log_constant zero_freq_stats = PInf /\
  get_sumpart (init zero_freq_stats (Fin 1) DLHWeight_new) 4 15 1 = Some PInf /\
  get_maxpart (init zero_freq_stats (Fin 1) DLHWeight_new) = Some PInf.
Proof.
  apply (zero_collection_freq_gives_infinity zero_freq_stats 20 1
           DLHWeight_new 4 15 1);
    try reflexivity; try lra; simpl; lia.
Defined.

(** ** Magnitudes of the intermediate results *)

Lemma log_constant_limit_pow : log_constant_limit = 2 ^ 288.
Proof.
  unfold log_constant_limit.
  change (IZR (2 ^ 288)) with (IZR (2 ^ Z.of_nat 288)).
  rewrite <- pow_IZR. reflexivity.
Qed.

Lemma log2_le_of_le_pow2 (y : R) (k : nat) :
  0 < y -> y <= 2 ^ k -> ln y / ln 2 <= INR k.
Proof.
  intros Hy Hk. pose proof ln_2_pos as H2.
  apply div_le_of_le_mul; [assumption |].
  rewrite <- ln_pow by lra. apply ln_monotone; assumption.
Qed.

Lemma log2_le_288 (y : R) :
  0 < y -> y <= log_constant_limit -> ln y / ln 2 <= 288.
Proof.
  intros Hy Hk. rewrite log_constant_limit_pow in Hk.
  pose proof (log2_le_of_le_pow2 y 288 Hy Hk) as H.
  rewrite INR_IZR_INZ in H. exact H.
Qed.

Lemma log2_le_35 (y : R) : 0 < y -> y <= IZR (2 ^ 35) -> ln y / ln 2 <= 35.
Proof.
  intros Hy Hk.
  change (IZR (2 ^ 35)) with (IZR (2 ^ Z.of_nat 35)) in Hk.
  rewrite <- pow_IZR in Hk.
  pose proof (log2_le_of_le_pow2 y 35 Hy Hk) as H.
  rewrite INR_IZR_INZ in H. exact H.
Qed.

Lemma termcount_real_bound (n : N) :
  is_termcount n -> 0 <= IZR (Z.of_N n) <= IZR (2 ^ 32) - 1.
Proof.
  unfold is_termcount. intro H. split; [apply IZR_of_N_nonneg |].
  rewrite <- minus_IZR. apply IZR_le. lia.
Qed.

Lemma limits_related :
  magnitude_limit * IZR (2 ^ 32) = log_constant_limit /\
  0 < magnitude_limit /\ 0 < log_constant_limit /\
  log_constant_limit * IZR (2 ^ 76) <= DBL_MAX.
Proof.
  unfold magnitude_limit, log_constant_limit, DBL_MAX.
  rewrite <- !mult_IZR. repeat split.
  - apply IZR_lt. reflexivity.
  - apply IZR_lt. reflexivity.
  - apply IZR_le. vm_compute. discriminate.
Qed.

(** The log constant of a term that occurs, for an average length within
    the limits. *)
Lemma init_log_constant_range (st : TermStats) (a : R) :
  get_average_length st = Fin a ->
  (0 < get_collection_size st)%N -> (0 < get_collection_freq st)%N ->
  is_termcount (get_collection_size st) ->
  is_termcount (get_collection_freq st) ->
  0 < a ->
  exists c,
    init_log_constant st = Fin c /\ 0 < c /\
    (a <= magnitude_limit -> c <= log_constant_limit) /\
    (/ magnitude_limit <= a -> / log_constant_limit <= c).
Proof.
  intros Ha HN HF HNr HFr Hapos.
  rewrite (init_log_constant_value st a Ha HF).
  destruct limits_related as [HM [HMpos [HLpos _]]].
  pose proof (IZR_of_N_pos _ HN) as Hn. pose proof (IZR_of_N_pos _ HF) as Hf.
  destruct (termcount_real_bound _ HNr) as [_ Hn'].
  destruct (termcount_real_bound _ HFr) as [_ Hf'].
  set (n := IZR (Z.of_N (get_collection_size st))) in *.
  set (F := IZR (Z.of_N (get_collection_freq st))) in *.
  assert (Hn1 : 1 <= n) by (apply IZR_le; lia).
  assert (Hf1 : 1 <= F) by (apply IZR_le; lia).
  assert (H32 : 0 < IZR (2 ^ 32)) by (apply IZR_lt; reflexivity).
  eexists. split; [reflexivity |].
  split; [apply Rdiv_lt_0_compat; [apply Rmult_lt_0_compat |]; lra |].
  split; intro H.
  - apply div_le_of_le_mul; [lra |]. rewrite <- HM.
    apply Rle_trans with (magnitude_limit * IZR (2 ^ 32) * 1); [| nra].
    rewrite Rmult_1_r. apply Rmult_le_compat; lra.
  - rewrite <- HM. rewrite Rinv_mult.
    assert (Hi32 : 0 < / IZR (2 ^ 32)) by (apply Rinv_0_lt_compat; lra).
    assert (HiF : / IZR (2 ^ 32) <= / F) by (apply Rinv_le_contravar; lra).
    assert (HiF' : 0 < / F) by (apply Rinv_0_lt_compat; lra).
    apply Rle_trans with (a * / IZR (2 ^ 32)).
    + apply Rmult_le_compat_r; lra.
    + unfold Rdiv. rewrite Rmult_assoc. apply Rmult_le_compat_l; [lra |].
      apply Rle_trans with (1 * / F); [lra |].
      apply Rmult_le_compat_r; lra.
Qed.

(** The local [wt] of [get_sumpart] is at most [288 * wdf + 18]. *)
Lemma interior_wt_upper (c x l d : R) :
  0 < x -> x < l -> 0 <= d -> 0 < c -> c <= log_constant_limit ->
  x <= IZR (2 ^ 32) ->
  interior_wt c x l d <= 288 * x + 18.
Proof.
  intros Hx Hl Hd Hc Hclim Hx32. unfold interior_wt.
  pose proof ln_2_pos as H2. pose proof PI_4 as Hpi4. pose proof PI_RGT_0 as Hpi.
  assert (Hp : 0 < x / l < 1).
  { split; [apply Rdiv_lt_0_compat; lra |].
    apply Rmult_lt_reg_r with l; [lra |]. unfold Rdiv.
    rewrite Rmult_assoc, Rinv_l by lra. lra. }
  assert (H1 : ln (x / l * c) / ln 2 <= 288).
  { apply log2_le_288; [apply Rmult_lt_0_compat; lra |].
    apply Rle_trans with (1 * c); [| lra].
    apply Rmult_le_compat_r; lra. }
  assert (H1' : x * (ln (x / l * c) / ln 2) <= 288 * x).
  { rewrite (Rmult_comm 288). apply Rmult_le_compat_l; lra. }
  assert (H2' : d * (ln (1 + - (x / l)) / ln 2) <= 0).
  { assert (ln (1 + - (x / l)) <= 0).
    { rewrite <- ln_1. apply ln_monotone; lra. }
    assert (ln (1 + - (x / l)) / ln 2 <= 0).
    { apply div_le_of_le_mul; lra. }
    nra. }
  assert (H3 : ln (2 * PI * x * (1 + - (x / l))) / ln 2 <= 35).
  { assert (H32 : IZR (2 ^ 35) = 8 * IZR (2 ^ 32)).
    { rewrite <- mult_IZR. reflexivity. }
    apply log2_le_35; [pose proof PI_RGT_0; positive_product |].
    rewrite H32.
    replace (2 * PI * x * (1 + - (x / l)))
      with (2 * PI * (x * (1 + - (x / l)))) by ring.
    assert (Hq : 0 <= x * (1 + - (x / l)) <= IZR (2 ^ 32)) by nra.
    apply Rmult_le_compat; lra. }
  lra.
Qed.

Lemma max_product_le_wdf_upper (st : TermStats) (m : R) :
  (1 <= get_wdf_upper_bound st)%N ->
  (2 <= get_doclength_upper_bound st)%N ->
  max_product st = Fin m ->
  m <= IZR (Z.of_N (get_wdf_upper_bound st)).
Proof.
  intros HW HL. unfold max_product, min_wdf_to_len, wdf_lower, of_count.
  set (W := IZR (Z.of_N (get_wdf_upper_bound st))).
  set (Lu := IZR (Z.of_N (get_doclength_upper_bound st))).
  assert (HW' : 1 <= W) by (apply IZR_le; lia).
  assert (HL' : 2 <= Lu) by (apply IZR_le; lia).
  rewrite !ddiv_Fin by lra.
  destruct (dmin_Fin W (Lu / 2)) as [v [-> _]].
  rewrite !ddiv_Fin by lra. rewrite !dsub_Fin, !dmul_Fin.
  destruct (dmin_Fin (v * (1 + - (v / Lu))) (W * (1 + - (1 / Lu))))
    as [m' [-> [_ [_ Hm]]]].
  intro E. injection E as <-.
  assert (0 < 1 / Lu) by (apply Rdiv_lt_0_compat; lra).
  nra.
Qed.

(** The analytic bound is at most 300. *)
Lemma analytic_bound_upper (c W Lu m : R) :
  0 < c -> c <= log_constant_limit -> 1 <= W -> 2 <= Lu ->
  0 < m -> m <= IZR (2 ^ 32) ->
  analytic_bound c W Lu m <= 300.
Proof.
  intros Hc Hclim HW HLu Hm Hm32. unfold analytic_bound.
  pose proof ln_2_pos as H2. pose proof PI_4 as Hpi4. pose proof PI_RGT_0 as Hpi.
  pose proof (log2_le_288 c Hc Hclim) as Hg.
  assert (H1 : W * (ln c / ln 2) / (W + 1 / 2) <= 288).
  { apply div_le_of_le_mul; [lra |].
    destruct (Rle_dec 0 (ln c / ln 2)); nra. }
  assert (H2' : (Lu + - 1) * (ln (1 + - (1 / Lu)) / ln 2) / (1 + 1 / 2) <= 0).
  { assert (Hi : 0 < 1 / Lu <= 1 / 2).
    { split; [apply Rdiv_lt_0_compat; lra |]. apply div_le_of_le_mul; lra. }
    assert (ln (1 + - (1 / Lu)) <= 0).
    { rewrite <- ln_1. apply ln_monotone; lra. }
    assert (ln (1 + - (1 / Lu)) / ln 2 <= 0) by (apply div_le_of_le_mul; lra).
    apply div_le_of_le_mul; [lra |]. nra. }
  assert (H3 : ln (2 * PI * m) / ln 2 <= 35).
  { assert (H32 : IZR (2 ^ 35) = 8 * IZR (2 ^ 32)).
    { rewrite <- mult_IZR. reflexivity. }
    apply log2_le_35; [positive_product |]. rewrite H32. nra. }
  assert (H3' : 1 / 2 * (ln (2 * PI * m) / ln 2) / (1 + 1 / 2) <= 12).
  { apply div_le_of_le_mul; lra. }
  lra.
Qed.

(** ** Away from the boundary, within the limits *)

Lemma sumpart_wt_infinite_log_constant :
  sumpart_wt PInf 4 15 = PInf.
Proof.
  unfold sumpart_wt.
  rewrite (one_minus_interior 4 15 ltac:(reflexivity) ltac:(reflexivity)).
  rewrite (wdf_to_len_interior 4 15 ltac:(reflexivity) ltac:(reflexivity)).
  pose proof PI_RGT_0 as Hpi.
  unfold M_PI, of_count. simpl Z.of_N.
  simpl (Fin _ * PInf)%D. unfold signed_inf. rewrite Rltb_true by lra.
  simpl (log2 PInf).
  simpl (Fin _ * PInf)%D. unfold signed_inf. rewrite Rltb_true by lra.
  rewrite !dmul_Fin.
  rewrite (log2_pos (1 + - (4 / 15))) by lra.
  rewrite (log2_pos (2 * PI * 4 * (1 + - (4 / 15)))) by positive_product.
  rewrite !dmul_Fin. reflexivity.
Qed.

(** C9, as stated, fails: the factor [+inf] is not negative, and a scheme
    initialised with it returns [+inf], not a finite number, for the
    posting [wdf = 4], [len = 15] (so does, in the program, a finite
    factor large enough for [wqf_product_factor * wt] to exceed
    [DBL_MAX]); with an average length of [+inf] the argument of the first
    logarithm is [+inf] and the value returned is [+inf] again. *)
Lemma get_sumpart_infinite_factor :
  (PInf <? 0.0)%D = false /\
  get_sumpart (init scenario_stats PInf DLHWeight_new) 4 15 1 = Some PInf /\
  (wdf_to_len 4 15 * init_log_constant infinite_length_stats)%D = PInf /\
  get_sumpart (init infinite_length_stats 1.0%D DLHWeight_new) 4 15 1
    = Some PInf /\
  forall r, Some PInf <> Some (Fin r).
Proof.
  assert (Hlc : init_log_constant infinite_length_stats = PInf).
  { unfold init_log_constant, of_count. simpl.
    unfold signed_inf. rewrite Rltb_true by lra. simpl.
    rewrite Rltb_false by lra. reflexivity. }
  split; [reflexivity |].
  split; [| split; [| split; [| intros r H; discriminate]]].
  - rewrite get_sumpart_regular by discriminate.
    rewrite scenario_sumpart_wt.
    destruct scenario_wt_positive as [t [-> Ht]].
    simpl dle. rewrite Rleb_false by assumption.
    unfold init_wqf_product_factor, of_count. simpl Z.of_N.
    simpl dmul. unfold signed_inf. rewrite Rltb_true by lra.
    simpl dmul. unfold signed_inf. rewrite Rltb_true by assumption.
    rewrite dadd_Fin. simpl ddiv. rewrite Rltb_false by lra. reflexivity.
  - rewrite Hlc.
    rewrite (wdf_to_len_interior 4 15 ltac:(reflexivity) ltac:(reflexivity)).
    simpl. unfold signed_inf. rewrite Rltb_true by lra. reflexivity.
  - rewrite get_sumpart_regular by discriminate.
    rewrite Hlc, sumpart_wt_infinite_log_constant.
    simpl dle.
    unfold init_wqf_product_factor, of_count. simpl Z.of_N.
    rewrite dmul_Fin.
    simpl dmul. unfold signed_inf. rewrite Rltb_true by lra.
    rewrite dadd_Fin. simpl ddiv. rewrite ?Rltb_false by lra. reflexivity.
Qed.

Lemma score_product_in_range (q f t x : R) :
  0 <= q <= IZR (2 ^ 32) - 1 -> 0 <= f <= magnitude_limit ->
  0 < t -> t <= 288 * x + 18 -> 0 < x <= IZR (2 ^ 32) ->
  0 <= q * f * t <= DBL_MAX.
Proof.
  intros Hq Hf Ht Htx Hx.
  destruct limits_related as [HM [HMpos [HLpos Hmax]]].
  assert (H32 : IZR (2 ^ 32) = 4294967296) by reflexivity.
  assert (H76 : 288 * IZR (2 ^ 32) + 18 <= IZR (2 ^ 76)).
  { rewrite H32. apply Rle_trans with (IZR (2 ^ 41)).
    - replace (288 * 4294967296 + 18) with (IZR (288 * 4294967296 + 18))
        by (rewrite plus_IZR, mult_IZR; reflexivity).
      apply IZR_le. vm_compute. discriminate.
    - apply IZR_le. vm_compute. discriminate. }
  assert (Hqf : 0 <= q * f <= log_constant_limit).
  { rewrite <- HM. split; [apply Rmult_le_pos; lra |].
    rewrite (Rmult_comm magnitude_limit). apply Rmult_le_compat; lra. }
  split; [apply Rmult_le_pos; lra |].
  apply Rle_trans with (log_constant_limit * IZR (2 ^ 76)); [| assumption].
  apply Rmult_le_compat; lra.
Qed.

(** C9, amended: for [0 < wdf < len], on a scheme initialised from the
    statistics of a term that occurs (positive collection size and
    collection frequency, counts below [2^32], a wdf upper bound that is
    not 0), with an average length between [2^-256] and [2^256] and a
    factor between 0 and [2^256]: the two divisors of [get_sumpart] are not
    zero, the argument of each of its three logarithms is a finite number
    above zero, the log constant lies between [2^-288] and [2^288], and the
    value returned is a finite number that is not negative, the product
    [wqf_product_factor * wt] it is divided from being at most
    [DBL_MAX]. *)
Theorem get_sumpart_interior_total
    (st : TermStats) (a f : R) (w : DLHWeight) (wdf len uniq : termcount) :
  (0 < get_collection_size st)%N ->
  (0 < get_collection_freq st)%N ->
  is_termcount (get_collection_size st) ->
  is_termcount (get_collection_freq st) ->
  is_termcount (get_wqf st) ->
  is_termcount len ->
  get_average_length st = Fin a ->
  / magnitude_limit <= a <= magnitude_limit ->
  get_wdf_upper_bound st <> 0%N ->
  0 <= f <= magnitude_limit ->
  (0 < wdf)%N -> (wdf < len)%N ->
  (of_count len =? 0.0)%D = false /\
  (of_count wdf + 0.5 =? 0.0)%D = false /\
  positive_finite (wdf_to_len wdf len * init_log_constant st)%D /\
  positive_finite (one_minus_wdf_to_len wdf len) /\
  positive_finite
    (2.0 * M_PI * of_count wdf * one_minus_wdf_to_len wdf len)%D /\
  (exists c,
      init_log_constant st = Fin c /\
      / log_constant_limit <= c <= log_constant_limit) /\
  exists r,
    get_sumpart (init st (Fin f) w) wdf len uniq = Some (Fin r) /\
    0 <= r /\
    0 <= r * (IZR (Z.of_N wdf) + 1 / 2) <= DBL_MAX.
Proof.
  intros HN HF HNr HFr Hqr Hlr Ha Hlim Hocc Hf Hwdf Hlen.
  destruct limits_related as [HM [HMpos [HLpos Hmax]]].
  assert (Hapos : 0 < a).
  { assert (0 < / magnitude_limit) by (apply Rinv_0_lt_compat; lra). lra. }
  destruct (init_log_constant_range st a Ha HN HF HNr HFr Hapos)
    as [c [Hc [Hcpos [Hcup Hclow]]]].
  destruct (interior_reals wdf len Hwdf Hlen) as [Hx Hl].
  destruct (ratio_interior wdf len Hwdf Hlen) as [H0 H1].
  pose proof (half_count_positive wdf) as Hhalf.
  pose proof PI_RGT_0 as Hpi.
  split; [rewrite of_count_is_zero; apply N.eqb_neq; lia |].
  split; [unfold of_count; simpl; apply Reqb_false; lra |].
  split.
  { rewrite Hc, (wdf_to_len_interior wdf len Hwdf Hlen), dmul_Fin.
    eexists. split; [reflexivity | positive_product]. }
  split.
  { rewrite (one_minus_interior wdf len Hwdf Hlen).
    eexists. split; [reflexivity | lra]. }
  split.
  { rewrite (one_minus_interior wdf len Hwdf Hlen). unfold M_PI, of_count.
    rewrite !dmul_Fin. eexists. split; [reflexivity | positive_product]. }
  split.
  { exists c. split; [assumption | split; [apply Hclow | apply Hcup]; lra]. }
  destruct (get_sumpart_interior_value st c f w wdf len uniq Hocc Hc Hcpos
              Hwdf Hlen) as [Hs0 Hs1].
  destruct (termcount_real_bound _ Hqr) as [Hq0 Hq1].
  destruct (termcount_real_bound _ Hlr) as [_ Hl1].
  pose proof (interior_wt_upper c (IZR (Z.of_N wdf)) (IZR (Z.of_N len))
                (IZR (Z.of_N (termcount_sub len wdf))) Hx Hl
                (IZR_of_N_nonneg _) Hcpos (Hcup ltac:(lra)) ltac:(lra)) as Ht.
  set (x := IZR (Z.of_N wdf)) in *.
  set (t := interior_wt c x _ _) in *.
  set (q := IZR (Z.of_N (get_wqf st))) in *.
  destruct (Rle_dec t 0) as [Hle | Hgt].
  - exists 0. split; [apply Hs0; assumption |].
    destruct limits_related as [_ [_ [_ H']]].
    assert (0 <= DBL_MAX).
    { apply Rle_trans with (log_constant_limit * IZR (2 ^ 76)); [| assumption].
      apply Rmult_le_pos; [lra | apply IZR_le; vm_compute; discriminate]. }
    rewrite Rmult_0_l. lra.
  - assert (Htpos : 0 < t) by lra.
    pose proof (score_product_in_range q f t x ltac:(lra) Hf Htpos Ht
                  ltac:(lra)) as Hrange.
    exists (q * f * t / (x + 1 / 2)).
    split; [apply Hs1; assumption |].
    split.
    + unfold Rdiv. apply Rmult_le_pos; [lra |].
      left. apply Rinv_0_lt_compat. assumption.
    + replace (q * f * t / (x + 1 / 2) * (x + 1 / 2)) with (q * f * t)
        by (field; lra).
      assumption.
Qed.

Lemma scenario_within_limits :
  / magnitude_limit <= 20 <= magnitude_limit /\ 0 <= 1 <= magnitude_limit.
Proof.
  assert (H : 20 <= magnitude_limit).
  { unfold magnitude_limit. apply IZR_le. vm_compute. discriminate. }
  assert (Hi : / magnitude_limit <= / 20) by (apply Rinv_le_contravar; lra).
  repeat split; lra.
Qed.

Lemma scenario_counts_in_range : counts_in_range scenario_stats.
Proof. unfold counts_in_range, is_termcount. simpl. repeat split; lia. Qed.

Lemma get_sumpart_interior_total_witness :
  exists r,
    get_sumpart (init scenario_stats (Fin 1) DLHWeight_new) 4 15 1
      = Some (Fin r) /\
    0 <= r /\ 0 <= r * (IZR (Z.of_N 4) + 1 / 2) <= DBL_MAX.
Proof.
  assert (H1 : (0 < get_collection_size scenario_stats)%N) by reflexivity.
  assert (H2 : (0 < get_collection_freq scenario_stats)%N) by reflexivity.
  destruct scenario_counts_in_range as (H3 & H4 & _ & _ & H5).
  assert (H6 : is_termcount 15) by (unfold is_termcount; lia).
  assert (H7 : get_average_length scenario_stats = Fin 20) by reflexivity.
  destruct scenario_within_limits as [H8 H10].
  assert (H9 : get_wdf_upper_bound scenario_stats <> 0%N) by discriminate.
  assert (H11 : (0 < 4)%N) by reflexivity.
  assert (H12 : (4 < 15)%N) by reflexivity.
  destruct (get_sumpart_interior_total scenario_stats 20 1 DLHWeight_new
              4 15 1 H1 H2 H3 H4 H5 H6 H7 H8 H9 H10 H11 H12)
    as (_ & _ & _ & _ & _ & _ & H).
  exact H.
Defined.

(** ** The bound for regular statistics, within the limits *)

Lemma analytic_bound_of_stats (st : TermStats) (a : R) :
  (0 < get_collection_size st)%N ->
  (0 < get_collection_freq st)%N ->
  counts_in_range st ->
  get_average_length st = Fin a -> 0 < a <= magnitude_limit ->
  (1 <= get_wdf_upper_bound st)%N ->
  (2 <= get_doclength_upper_bound st)%N ->
  exists c m0,
    init_log_constant st = Fin c /\ 0 < c /\
    max_product st = Fin m0 /\ 0 < m0 /\
    (forall x l,
        1 <= x -> x <= IZR (Z.of_N (get_wdf_upper_bound st)) ->
        x <= l -> l <= IZR (Z.of_N (get_doclength_upper_bound st)) ->
        x * (1 - x / l) <= m0 /\ (l < 2 * x -> l / 4 <= m0)) /\
    init_bound st =
      Fin (analytic_bound c (IZR (Z.of_N (get_wdf_upper_bound st)))
                            (IZR (Z.of_N (get_doclength_upper_bound st))) m0) /\
    analytic_bound c (IZR (Z.of_N (get_wdf_upper_bound st)))
                     (IZR (Z.of_N (get_doclength_upper_bound st))) m0 <= 300 /\
    c <= log_constant_limit.
Proof.
  intros HN HF (HNr & HFr & HWr & HLr & Hqr) Ha [Hapos Halim] HW HL.
  destruct (init_log_constant_range st a Ha HN HF HNr HFr Hapos)
    as [c [Hc [Hcpos [Hcup _]]]].
  destruct (max_product_value st HW HL) as [m0 [Hm0 [Hm0pos Hmp]]].
  pose proof (max_product_le_wdf_upper st m0 HW HL Hm0) as Hm0W.
  destruct (termcount_real_bound _ HWr) as [_ HW32].
  exists c, m0.
  split; [assumption | split; [assumption |]].
  split; [assumption | split; [assumption | split; [assumption |]]].
  split; [apply init_bound_value; assumption |].
  split; [| apply Hcup; assumption].
  apply analytic_bound_upper; try assumption; try (apply IZR_le; lia).
  - apply Hcup; assumption.
  - lra.
Qed.

Lemma bound_product_in_range (b q f : R) :
  0 <= b <= 300 -> 0 <= q <= IZR (2 ^ 32) - 1 -> 0 <= f <= magnitude_limit ->
  0 <= b * (q * f) <= DBL_MAX / IZR (2 ^ 33).
Proof.
  intros Hb Hq Hf.
  destruct limits_related as [HM [HMpos [HLpos Hmax]]].
  assert (Hqf : 0 <= q * f <= log_constant_limit).
  { rewrite <- HM. split; [apply Rmult_le_pos; lra |].
    rewrite (Rmult_comm magnitude_limit). apply Rmult_le_compat; lra. }
  assert (H33 : 0 < IZR (2 ^ 33)) by (apply IZR_lt; reflexivity).
  assert (H76 : 300 * IZR (2 ^ 33) <= IZR (2 ^ 76)).
  { rewrite <- mult_IZR. apply IZR_le. vm_compute. discriminate. }
  split; [apply Rmult_le_pos; lra |].
  apply Rmult_le_reg_r with (IZR (2 ^ 33)); [assumption |].
  unfold Rdiv. rewrite (Rmult_assoc DBL_MAX), Rinv_l, Rmult_1_r by lra.
  apply Rle_trans with (log_constant_limit * IZR (2 ^ 76)); [| assumption].
  apply Rle_trans with (300 * log_constant_limit * IZR (2 ^ 33)); [| nra].
  apply Rmult_le_compat_r; [lra |].
  apply Rmult_le_compat; lra.
Qed.

Lemma DBL_MAX_part : DBL_MAX / IZR (2 ^ 33) <= DBL_MAX /\ 0 < DBL_MAX.
Proof.
  assert (H : 0 < DBL_MAX) by (apply IZR_lt; reflexivity).
  assert (H33 : 1 <= IZR (2 ^ 33)) by (apply IZR_le; vm_compute; discriminate).
  split; [| assumption].
  apply div_le_of_le_mul; [lra |]. nra.
Qed.

(** For the statistics of a term that occurs in a collection with a
    document of length 2 or more (positive [N] and [F], counts below
    [2^32], a wdf upper bound of at least 1, a length upper bound of at
    least 2), an average length between [2^-256] and [2^256] and a factor
    between 0 and [2^256]: [get_maxpart()] is a number between 0 and
    [DBL_MAX]; [get_maxextra()] and [get_sumextra()] are [0.0]. *)
Theorem get_maxpart_regular_nonneg
    (st : TermStats) (a f : R) (w : DLHWeight) (len uniq : termcount) :
  (0 < get_collection_size st)%N ->
  (0 < get_collection_freq st)%N ->
  counts_in_range st ->
  get_average_length st = Fin a ->
  / magnitude_limit <= a <= magnitude_limit ->
  (1 <= get_wdf_upper_bound st)%N ->
  (2 <= get_doclength_upper_bound st)%N ->
  0 <= f <= magnitude_limit ->
  (exists m, get_maxpart (init st (Fin f) w) = Some (Fin m)
             /\ 0 <= m <= DBL_MAX) /\
  get_maxextra (init st (Fin f) w) = 0.0%D /\
  get_sumextra (init st (Fin f) w) len uniq = 0.0%D.
Proof.
  intros HN HF Hr Ha Ha2 HW HL Hf.
  assert (Halim : 0 < a <= magnitude_limit).
  { destruct limits_related as (_ & HMpos & _).
    pose proof (Rinv_0_lt_compat _ HMpos). lra. }
  split; [| split; reflexivity].
  destruct (analytic_bound_of_stats st a HN HF Hr Ha Halim HW HL)
    as (c & m0 & _ & _ & _ & _ & _ & Hb & Hb300 & _).
  destruct Hr as (_ & _ & _ & _ & Hqr).
  destruct (termcount_real_bound _ Hqr) as [Hq0 Hq1].
  destruct (get_maxpart_regular_value st f _ w ltac:(lia) Hb) as [Hneg Hpos].
  destruct DBL_MAX_part as [Hpart HDpos].
  set (b := analytic_bound c _ _ m0) in *.
  destruct (Rlt_dec b 0) as [Hbn | Hbp].
  - exists 0. split; [apply Hneg; assumption | lra].
  - eexists. split; [apply Hpos; lra |].
    pose proof (bound_product_in_range b _ f ltac:(lra) (conj Hq0 Hq1) Hf).
    lra.
Qed.

Lemma get_maxpart_regular_nonneg_witness :
  exists m,
    get_maxpart (init scenario_stats (Fin 1) DLHWeight_new) = Some (Fin m) /\
    0 <= m <= DBL_MAX.
Proof.
  assert (H1 : (0 < get_collection_size scenario_stats)%N) by reflexivity.
  assert (H2 : (0 < get_collection_freq scenario_stats)%N) by reflexivity.
  assert (H3 : get_average_length scenario_stats = Fin 20) by reflexivity.
  destruct scenario_within_limits as [H4 H7].
  assert (H5 : (1 <= get_wdf_upper_bound scenario_stats)%N) by (simpl; lia).
  assert (H6 : (2 <= get_doclength_upper_bound scenario_stats)%N)
    by (simpl; lia).
  destruct (get_maxpart_regular_nonneg scenario_stats 20 1 DLHWeight_new
              15 1 H1 H2 scenario_counts_in_range H3 H4 H5 H6 H7) as [H _].
  exact H.
Defined.

(** ** The score against the bound, within the limits *)

(** The upper bound is sound away from [wdf = len]: for every admissible
    posting with [wdf < len] of a term with positive [N] and [F], counts
    below [2^32], an average length between [2^-256] and [2^256] and a
    factor between 0 and [2^256], the value [get_sumpart] returns is a
    number between 0 and the number [get_maxpart()] returns, which is at
    most [DBL_MAX]; the product [wqf_product_factor * wt] the score is
    divided from is at most [DBL_MAX] too. *)
Theorem get_sumpart_le_get_maxpart
    (st : TermStats) (a f : R) (w : DLHWeight) (wdf len uniq : termcount) :
  (0 < get_collection_size st)%N ->
  (0 < get_collection_freq st)%N ->
  counts_in_range st ->
  get_average_length st = Fin a ->
  / magnitude_limit <= a <= magnitude_limit ->
  0 <= f <= magnitude_limit ->
  (1 <= wdf)%N -> (wdf <= get_wdf_upper_bound st)%N ->
  (wdf < len)%N -> (len <= get_doclength_upper_bound st)%N ->
  exists s m,
    get_sumpart (init st (Fin f) w) wdf len uniq = Some (Fin s) /\
    get_maxpart (init st (Fin f) w) = Some (Fin m) /\
    0 <= s <= m /\ m <= DBL_MAX /\
    s * (IZR (Z.of_N wdf) + 1 / 2) <= DBL_MAX.
Proof.
  intros HN HF Hr Ha Ha2 Hf Hwdf HW Hlen HLu.
  assert (Halim : 0 < a <= magnitude_limit).
  { destruct limits_related as (_ & HMpos & _).
    pose proof (Rinv_0_lt_compat _ HMpos). lra. }
  destruct (analytic_bound_of_stats st a HN HF Hr Ha Halim ltac:(lia) ltac:(lia))
    as (c & m0 & Hc & Hcpos & Hm0 & Hm0pos & Hmp & Hb & Hb300 & Hclim).
  destruct Hr as (_ & _ & HWr & HLr & Hqr).
  assert (Htc : is_termcount len) by (unfold is_termcount in *; lia).
  destruct (termcount_real_bound _ Hqr) as [Hq0 Hq1].
  destruct (termcount_real_bound _ HWr) as [_ HW32].
  destruct DBL_MAX_part as [Hpart HDpos].
  destruct (get_maxpart_regular_value st f _ w ltac:(lia) Hb) as [Hmneg Hmpos].
  destruct (get_sumpart_interior_value st c f w wdf len uniq ltac:(lia) Hc Hcpos
              ltac:(lia) Hlen) as [Hsnonpos Hspos].
  destruct (interior_wt_below_bound st c m0 wdf len Hcpos Hwdf HW Hlen HLu
              Hm0pos Hmp) as [Hlow Hhigh].
  rewrite (termcount_sub_exact len wdf ltac:(lia) Htc) in Hsnonpos, Hspos.
  assert (Hx1 : 1 <= IZR (Z.of_N wdf)) by (apply IZR_le; lia).
  assert (HxW : IZR (Z.of_N wdf) <= IZR (Z.of_N (get_wdf_upper_bound st)))
    by (apply IZR_le; lia).
  assert (Hxl : IZR (Z.of_N wdf) < IZR (Z.of_N len)) by (apply IZR_lt; lia).
  set (x := IZR (Z.of_N wdf)) in *. set (l := IZR (Z.of_N len)) in *.
  pose proof (interior_wt_upper c x l (l - x) ltac:(lra) Hxl ltac:(lra) Hcpos
                Hclim ltac:(lra)) as Htup.
  set (t := interior_wt c x l (l - x)) in *.
  set (b := analytic_bound c _ _ m0) in *.
  set (q := IZR (Z.of_N (get_wqf st))) in *.
  assert (Hx : 0 < x + 1 / 2) by lra.
  assert (Hmax : exists m, get_maxpart (init st (Fin f) w) = Some (Fin m)
                           /\ 0 <= m <= DBL_MAX /\ (0 <= b -> m = b * (q * f))).
  { destruct (Rlt_dec b 0) as [Hbn | Hbp].
    - exists 0. split; [apply Hmneg; assumption | split; lra].
    - exists (b * (q * f)). split; [apply Hmpos; lra |].
      split; [| reflexivity].
      pose proof (bound_product_in_range b q f ltac:(lra) (conj Hq0 Hq1) Hf).
      lra. }
  destruct Hmax as [m [Em [Hm0' Hmb]]].
  destruct (Rle_dec t 0) as [Ht | Ht].
  - exists 0, m. split; [apply Hsnonpos; assumption |].
    split; [assumption |]. rewrite Rmult_0_l. lra.
  - assert (Htpos : 0 < t) by lra.
    assert (Hc1 : 1 <= c).
    { destruct (Rle_dec 1 c) as [H | H]; [assumption |].
      pose proof (Hlow ltac:(lra)). lra. }
    pose proof (Hhigh Hc1) as Hle.
    assert (Hr : 0 < t / (x + 1 / 2)) by (apply Rdiv_lt_0_compat; assumption).
    exists (q * f * t / (x + 1 / 2)), m.
    split; [apply Hspos; assumption | split; [assumption |]].
    assert (Hqf : 0 <= q * f) by (apply Rmult_le_pos; lra).
    split; [| split; [lra |]].
    + rewrite (Hmb ltac:(lra)).
      replace (q * f * t / (x + 1 / 2)) with (t / (x + 1 / 2) * (q * f))
        by (field; lra).
      split; [apply Rmult_le_pos; lra |].
      apply Rmult_le_compat_r; assumption.
    + replace (q * f * t / (x + 1 / 2) * (x + 1 / 2)) with (q * f * t)
        by (field; lra).
      apply (score_product_in_range q f t x (conj Hq0 Hq1) Hf Htpos Htup).
      lra.
Qed.

Lemma get_sumpart_le_get_maxpart_witness :
  exists s m,
    get_sumpart (init scenario_stats (Fin 1) DLHWeight_new) 4 15 1
      = Some (Fin s) /\
    get_maxpart (init scenario_stats (Fin 1) DLHWeight_new) = Some (Fin m) /\
    0 <= s <= m /\ m <= DBL_MAX /\
    s * (IZR (Z.of_N 4) + 1 / 2) <= DBL_MAX.
Proof.
  assert (H1 : (0 < get_collection_size scenario_stats)%N) by reflexivity.
  assert (H2 : (0 < get_collection_freq scenario_stats)%N) by reflexivity.
  assert (H3 : get_average_length scenario_stats = Fin 20) by reflexivity.
  destruct scenario_within_limits as [H4 H5].
  assert (H6 : (1 <= 4)%N) by lia.
  assert (H7 : (4 <= get_wdf_upper_bound scenario_stats)%N) by (simpl; lia).
  assert (H8 : (4 < 15)%N) by reflexivity.
  assert (H9 : (15 <= get_doclength_upper_bound scenario_stats)%N)
    by (simpl; lia).
  exact (get_sumpart_le_get_maxpart scenario_stats 20 1 DLHWeight_new 4 15 1
           H1 H2 scenario_counts_in_range H3 H4 H5 H6 H7 H8 H9).
Defined.

(** ** The factor *)

(** For a term that occurs (positive [N] and [F], counts below [2^32], an
    average length between [2^-256] and [2^256]) and a posting with
    [0 < wdf < len < 2^32], the score and the bound grow with the factor:
    for factors [0 <= f1 <= f2 <= 2^256] the scores [s1], [s2] that
    [get_sumpart] returns and the bounds [m1], [m2] that [get_maxpart()]
    returns are numbers with [0 <= s1 <= s2 <= DBL_MAX] and
    [0 <= m1 <= m2 <= DBL_MAX]. *)
Theorem score_and_bound_monotone_in_factor
    (st : TermStats) (a f1 f2 : R) (w : DLHWeight)
    (wdf len uniq : termcount) :
  (0 < get_collection_size st)%N ->
  (0 < get_collection_freq st)%N ->
  counts_in_range st ->
  get_average_length st = Fin a ->
  / magnitude_limit <= a <= magnitude_limit ->
  (1 <= get_wdf_upper_bound st)%N ->
  (2 <= get_doclength_upper_bound st)%N ->
  (0 < wdf)%N -> (wdf < len)%N -> is_termcount len ->
  0 <= f1 -> f1 <= f2 -> f2 <= magnitude_limit ->
  exists s1 s2 m1 m2,
    get_sumpart (init st (Fin f1) w) wdf len uniq = Some (Fin s1) /\
    get_sumpart (init st (Fin f2) w) wdf len uniq = Some (Fin s2) /\
    get_maxpart (init st (Fin f1) w) = Some (Fin m1) /\
    get_maxpart (init st (Fin f2) w) = Some (Fin m2) /\
    0 <= s1 <= s2 /\ s2 <= DBL_MAX /\
    0 <= m1 <= m2 /\ m2 <= DBL_MAX.
Proof.
  intros HN HF Hr Ha Ha2 HW HL Hwdf Hlen Htc Hf1 Hf12 Hf2.
  assert (Halim : 0 < a <= magnitude_limit).
  { destruct limits_related as (_ & HMpos & _).
    pose proof (Rinv_0_lt_compat _ HMpos). lra. }
  destruct (analytic_bound_of_stats st a HN HF Hr Ha Halim HW HL)
    as (c & m0 & Hc & Hcpos & _ & _ & _ & Hb & Hb300 & Hclim).
  destruct Hr as (_ & _ & _ & _ & Hqr).
  destruct (termcount_real_bound _ Hqr) as [Hq0 Hq1].
  assert (Htw : is_termcount wdf) by (unfold is_termcount in *; lia).
  destruct (termcount_real_bound _ Htw) as [_ Hx32].
  destruct DBL_MAX_part as [Hpart HDpos].
  destruct (get_maxpart_regular_value st f1 _ w ltac:(lia) Hb) as [Hn1 Hp1].
  destruct (get_maxpart_regular_value st f2 _ w ltac:(lia) Hb) as [Hn2 Hp2].
  destruct (get_sumpart_interior_value st c f1 w wdf len uniq ltac:(lia) Hc
              Hcpos Hwdf Hlen) as [Hs01 Hs1].
  destruct (get_sumpart_interior_value st c f2 w wdf len uniq ltac:(lia) Hc
              Hcpos Hwdf Hlen) as [Hs02 Hs2].
  assert (Hx1 : 1 <= IZR (Z.of_N wdf)) by (apply IZR_le; lia).
  assert (Hxl : IZR (Z.of_N wdf) < IZR (Z.of_N len)) by (apply IZR_lt; lia).
  pose proof (IZR_of_N_nonneg (termcount_sub len wdf)) as Hd.
  set (x := IZR (Z.of_N wdf)) in *. set (l := IZR (Z.of_N len)) in *.
  pose proof (interior_wt_upper c x l _ ltac:(lra) Hxl Hd Hcpos Hclim
                ltac:(lra)) as Htup.
  set (t := interior_wt c x l _) in *.
  set (b := analytic_bound c _ _ m0) in *.
  set (q := IZR (Z.of_N (get_wqf st))) in *.
  assert (Hq12 : 0 <= q * f1 <= q * f2).
  { split; [apply Rmult_le_pos; lra | apply Rmult_le_compat_l; lra]. }
  assert (Hmax : exists m1 m2,
             get_maxpart (init st (Fin f1) w) = Some (Fin m1) /\
             get_maxpart (init st (Fin f2) w) = Some (Fin m2) /\
             0 <= m1 <= m2 /\ m2 <= DBL_MAX).
  { destruct (Rlt_dec b 0) as [Hbn | Hbp].
    - exists 0, 0. rewrite Hn1, Hn2 by assumption.
      repeat split; try reflexivity; lra.
    - exists (b * (q * f1)), (b * (q * f2)).
      rewrite Hp1, Hp2 by lra.
      pose proof (bound_product_in_range b q f2 ltac:(lra) (conj Hq0 Hq1)
                    ltac:(lra)).
      repeat split; try reflexivity; try lra.
      + apply Rmult_le_pos; lra.
      + apply Rmult_le_compat_l; lra. }
  destruct Hmax as (m1 & m2 & Em1 & Em2 & Hm12 & Hm2).
  destruct (Rle_dec t 0) as [Ht | Ht].
  - exists 0, 0, m1, m2. rewrite Hs01, Hs02 by assumption.
    repeat split; try reflexivity; try assumption; lra.
  - assert (Htpos : 0 < t) by lra.
    exists (q * f1 * t / (x + 1 / 2)), (q * f2 * t / (x + 1 / 2)), m1, m2.
    rewrite Hs1, Hs2 by assumption.
    assert (Hinv : 0 < / (x + 1 / 2) <= 1).
    { split; [apply Rinv_0_lt_compat; lra |].
      rewrite <- Rinv_1. apply Rinv_le_contravar; lra. }
    pose proof (score_product_in_range q f2 t x (conj Hq0 Hq1) ltac:(lra)
                  Htpos Htup ltac:(lra)) as Hprod.
    assert (H12 : 0 <= q * f1 * t <= q * f2 * t).
    { split; [apply Rmult_le_pos; lra | apply Rmult_le_compat_r; lra]. }
    repeat split; try reflexivity; try assumption; try lra.
    + unfold Rdiv. apply Rmult_le_pos; lra.
    + unfold Rdiv. apply Rmult_le_compat_r; lra.
    + unfold Rdiv. apply Rle_trans with (q * f2 * t * 1); [| lra].
      apply Rmult_le_compat_l; lra.
Qed.

Lemma score_and_bound_monotone_in_factor_witness :
  exists s1 s2 m1 m2,
    get_sumpart (init scenario_stats (Fin 1) DLHWeight_new) 4 15 1
      = Some (Fin s1) /\
    get_sumpart (init scenario_stats (Fin 2) DLHWeight_new) 4 15 1
      = Some (Fin s2) /\
    get_maxpart (init scenario_stats (Fin 1) DLHWeight_new) = Some (Fin m1) /\
    get_maxpart (init scenario_stats (Fin 2) DLHWeight_new) = Some (Fin m2) /\
    0 <= s1 <= s2 /\ s2 <= DBL_MAX /\
    0 <= m1 <= m2 /\ m2 <= DBL_MAX.
Proof.
  assert (H1 : (0 < get_collection_size scenario_stats)%N) by reflexivity.
  assert (H2 : (0 < get_collection_freq scenario_stats)%N) by reflexivity.
  assert (H3 : get_average_length scenario_stats = Fin 20) by reflexivity.
  destruct scenario_within_limits as [H4 _].
  assert (H5 : (1 <= get_wdf_upper_bound scenario_stats)%N) by (simpl; lia).
  assert (H6 : (2 <= get_doclength_upper_bound scenario_stats)%N)
    by (simpl; lia).
  assert (H7 : (0 < 4)%N) by reflexivity.
  assert (H8 : (4 < 15)%N) by reflexivity.
  assert (H9 : is_termcount 15) by (unfold is_termcount; lia).
  assert (H10 : 0 <= 1) by lra.
  assert (H11 : 1 <= 2) by lra.
  assert (H12 : 2 <= magnitude_limit) by (destruct H4; lra).
  exact (score_and_bound_monotone_in_factor scenario_stats 20 1 2
           DLHWeight_new 4 15 1 H1 H2 scenario_counts_in_range H3 H4 H5 H6
           H7 H8 H9 H10 H11 H12).
Defined.

(** ** The return code declared for [set_probabilistic] *)




